(** * FocusLock: the capture-device settings synchronisation engine

    A shallow embedding of [App.tsx] (device enumeration, stream life
    cycle, settings reconciliation, constraint application) and of
    [services/geminiService.ts] (script request), with the properties the
    specification states about them.

    Conventions.
    - A JavaScript [number] is an IEEE 754 binary64 value: the Standard
      Library's [spec_float]. Only truthiness and [<=] are used by the
      code under study; no arithmetic is performed on numbers.
    - An optional property ([x?: T], or a property a host object may not
      report) is an [option]; [None] is [undefined].
    - Host objects that the code mutates through references (media
      streams and their tracks) live in a store indexed by handle.
    - Every call into the host API is appended to a log, so that the
      order of calls can be stated. *)

From Stdlib Require Import ZArith String Ascii List Bool Lia.
From Stdlib Require Import Floats.SpecFloat.
From stdpp Require Import base option list.

Import ListNotations.
Local Open Scope string_scope.
Local Open Scope list_scope.

(** ** JavaScript values used by the code *)

Module JS.

(** [number]: binary64. *)
Definition number : Type := spec_float.

Definition prec : Z := 53.
Definition emax : Z := 1024.

(** The number denoted by an integer literal of the source. *)
Definition lit (z : Z) : number := binary_normalize prec emax z 0 false.

(** [a <= b] on numbers; false as soon as one side is NaN. *)
Definition le (a b : number) : bool := SFleb a b.

(** ToBoolean on a number: [+0], [-0] and [NaN] are falsy. *)
Definition truthy (x : number) : bool :=
  match x with
  | S754_zero _ | S754_nan => false
  | S754_infinity _ | S754_finite _ _ _ => true
  end.

(** ToBoolean on a string: only the empty string is falsy. *)
Definition truthy_string (s : string) : bool :=
  match s with
  | EmptyString => false
  | String _ _ => true
  end.

(** [a || b] where [a] and [b] may be [undefined]. *)
Definition or (a b : option number) : option number :=
  match a with
  | Some x => if truthy x then a else b
  | None => b
  end.

(** [a || d] where [d] is a number: the result is a number. *)
Definition or_num (a : option number) (d : number) : number :=
  match a with
  | Some x => if truthy x then x else d
  | None => d
  end.

(** [a || d] on strings. *)
Definition or_string (a : option string) (d : string) : string :=
  match a with
  | Some s => if truthy_string s then s else d
  | None => d
  end.

(** [s.slice(0, n)]: the first [n] characters, fewer when [s] is shorter. *)
Definition slice0 (n : nat) (s : string) : string := substring 0 n s.

(** The outcome of an awaited promise or of a call that may throw. *)
Inductive settled (A E : Type) : Type :=
| Fulfilled (a : A)
| Rejected (e : E).
Arguments Fulfilled {A E} a.
Arguments Rejected {A E} e.

End JS.

(** ** types.ts *)

Record CameraDevice := {
  deviceId : string;
  label : string;
}.

Record Range := {
  min : JS.number;
  max : JS.number;
  step : JS.number;
}.

Record CameraCapabilities := {
  caps_focusMode : option (list string);
  caps_focusDistance : option Range;
  caps_zoom : option Range;
  caps_brightness : option Range;
  caps_contrast : option Range;
  caps_saturation : option Range;
  caps_sharpness : option Range;
}.

(** [focusMode] is declared ['continuous' | 'manual']; the value stored at
    run time is whatever string the track reports (the assignment in
    [startStream] is under [@ts-ignore]), so the field is a string. *)
Record CameraSettings := {
  focusMode : string;
  focusDistance : JS.number;
  zoom : JS.number;
  brightness : JS.number;
  contrast : JS.number;
}.

(** The object returned by [track.getSettings()]: every property optional. *)
Record MediaTrackSettings := {
  cur_focusMode : option string;
  cur_focusDistance : option JS.number;
  cur_zoom : option JS.number;
  cur_brightness : option JS.number;
  cur_contrast : option JS.number;
}.

(** [{}]: the initial value of the [capabilities] state. *)
Definition no_capabilities : CameraCapabilities :=
  {| caps_focusMode := None; caps_focusDistance := None; caps_zoom := None;
     caps_brightness := None; caps_contrast := None;
     caps_saturation := None; caps_sharpness := None |}.

(** The initial value of the [settings] state (App.tsx, lines 18-24). *)
Definition initial_settings : CameraSettings :=
  {| focusMode := "continuous";
     focusDistance := JS.lit 0;
     zoom := JS.lit 1;
     brightness := JS.lit 100;
     contrast := JS.lit 100 |}.

(** ** Fields of the settings model

    [keyof CameraSettings], and the type of the value each key holds. *)
Inductive Key := KfocusMode | KfocusDistance | Kzoom | Kbrightness | Kcontrast.

Definition field_type (k : Key) : Type :=
  match k with
  | KfocusMode => string
  | _ => JS.number
  end.

(** [s[k]] *)
Definition get (k : Key) (s : CameraSettings) : field_type k :=
  match k with
  | KfocusMode => focusMode s
  | KfocusDistance => focusDistance s
  | Kzoom => zoom s
  | Kbrightness => brightness s
  | Kcontrast => contrast s
  end.

(** [{ ...s, [k]: v }] *)
Definition set (k : Key) : field_type k -> CameraSettings -> CameraSettings :=
  match k with
  | KfocusMode => fun v s =>
      {| focusMode := v; focusDistance := focusDistance s; zoom := zoom s;
         brightness := brightness s; contrast := contrast s |}
  | KfocusDistance => fun v s =>
      {| focusMode := focusMode s; focusDistance := v; zoom := zoom s;
         brightness := brightness s; contrast := contrast s |}
  | Kzoom => fun v s =>
      {| focusMode := focusMode s; focusDistance := focusDistance s; zoom := v;
         brightness := brightness s; contrast := contrast s |}
  | Kbrightness => fun v s =>
      {| focusMode := focusMode s; focusDistance := focusDistance s; zoom := zoom s;
         brightness := v; contrast := contrast s |}
  | Kcontrast => fun v s =>
      {| focusMode := focusMode s; focusDistance := focusDistance s; zoom := zoom s;
         brightness := brightness s; contrast := v |}
  end.

(** ** The settings reconciler (App.tsx, lines 82-94)

    [caps.f?.min]: the minimum of the range of a field, when it has one. *)
Definition min_of (r : option Range) : option JS.number := min <$> r.

(** The updater passed to [setSettings]: the spread [...prev] followed by
    the five property definitions, each overriding the copied one. *)
Definition reconcile (prev : CameraSettings) (caps : CameraCapabilities)
    (currentSettings : MediaTrackSettings) : CameraSettings :=
  set Kcontrast
    (JS.or_num (JS.or (cur_contrast currentSettings)
                      (min_of (caps_contrast caps))) (JS.lit 100))
  (set Kbrightness
    (JS.or_num (JS.or (cur_brightness currentSettings)
                      (min_of (caps_brightness caps))) (JS.lit 100))
  (set Kzoom
    (JS.or_num (JS.or (cur_zoom currentSettings)
                      (min_of (caps_zoom caps))) (JS.lit 1))
  (set KfocusDistance
    (JS.or_num (JS.or (cur_focusDistance currentSettings)
                      (min_of (caps_focusDistance caps))) (JS.lit 0))
  (set KfocusMode
    (JS.or_string (cur_focusMode currentSettings) "continuous")
  prev)))).

(** ** Host objects *)

(** An [Error] is represented by its message. *)
Definition Error : Type := string.

Inductive MediaDeviceKind := audioinput | audiooutput | videoinput.

(** An entry of [navigator.mediaDevices.enumerateDevices()]. *)
Record MediaDeviceInfo := {
  info_deviceId : string;
  info_kind : MediaDeviceKind;
  info_label : string;
}.

Inductive TrackKind := audio | video.
Inductive ReadyState := live | ended.

Record MediaStreamTrack := {
  kind : TrackKind;
  readyState : ReadyState;
  getCapabilities : CameraCapabilities;
  getSettings : MediaTrackSettings;
}.

(** A stream records the device it was opened on: [Some id] when it was
    requested with [deviceId: { exact: id }], [None] for [{ video: true }]. *)
Record MediaStream := {
  source : option string;
  getTracks : list MediaStreamTrack;
}.

Definition is_video (t : MediaStreamTrack) : bool :=
  match kind t with video => true | audio => false end.

Definition getVideoTracks (s : MediaStream) : list MediaStreamTrack :=
  List.filter is_video (getTracks s).

(** [track.stop()] *)
Definition stop (t : MediaStreamTrack) : MediaStreamTrack :=
  {| kind := kind t; readyState := ended;
     getCapabilities := getCapabilities t; getSettings := getSettings t |}.

Definition is_live (t : MediaStreamTrack) : bool :=
  match readyState t with live => true | ended => false end.

(** A stream is live while one of its tracks is. *)
Definition stream_live (s : MediaStream) : bool := existsb is_live (getTracks s).

(** One property of a constraint set: [{ [key]: value }]. *)
Record Constraint := {
  c_key : Key;
  c_value : field_type c_key;
}.

(** The two arguments [getUserMedia] is called with. *)
Inductive MediaStreamConstraints :=
| video_true
| video_device (exact : string) (width_ideal height_ideal : Z)
    (advanced : list Constraint).

(** A stream is referred to by its position in the store. *)
Abbreviation Handle := nat.

(** Calls into the host, in the order they are made. *)
Inductive HostCall :=
| GetUserMedia (c : MediaStreamConstraints)
| EnumerateDevices
| TrackStop (h : Handle) (i : nat)
| ApplyConstraints (h : Handle) (advanced : list Constraint)
| ConsoleError (e : Error)
| ConsoleWarn (c : option Constraint) (e : Error).

(** ** The session: React state, refs, and the host side *)

Record AppState := {
  streamRef : option Handle;
  srcObject : option Handle;
  devices : list CameraDevice;
  selectedDeviceId : string;
  error : option string;
  capabilities : CameraCapabilities;
  settings : CameraSettings;
}.

Record World := {
  state : AppState;
  store : list MediaStream;
  pending : list string;
  log : list HostCall;
}.

Definition initial_state : AppState :=
  {| streamRef := None; srcObject := None; devices := [];
     selectedDeviceId := EmptyString; error := None;
     capabilities := no_capabilities; settings := initial_settings |}.

Definition initial_world : World :=
  {| state := initial_state; store := []; pending := []; log := [] |}.

Definition with_state (f : AppState -> AppState) (w : World) : World :=
  {| state := f (state w); store := store w; pending := pending w; log := log w |}.

Definition with_store (f : list MediaStream -> list MediaStream) (w : World) : World :=
  {| state := state w; store := f (store w); pending := pending w; log := log w |}.

Definition with_pending (f : list string -> list string) (w : World) : World :=
  {| state := state w; store := store w; pending := f (pending w); log := log w |}.

Definition call (c : HostCall) (w : World) : World :=
  {| state := state w; store := store w; pending := pending w; log := log w ++ [c] |}.

Definition set_streamRef (h : option Handle) (a : AppState) : AppState :=
  {| streamRef := h; srcObject := srcObject a; devices := devices a;
     selectedDeviceId := selectedDeviceId a; error := error a;
     capabilities := capabilities a; settings := settings a |}.

Definition set_srcObject (h : option Handle) (a : AppState) : AppState :=
  {| streamRef := streamRef a; srcObject := h; devices := devices a;
     selectedDeviceId := selectedDeviceId a; error := error a;
     capabilities := capabilities a; settings := settings a |}.

Definition set_devices (ds : list CameraDevice) (a : AppState) : AppState :=
  {| streamRef := streamRef a; srcObject := srcObject a; devices := ds;
     selectedDeviceId := selectedDeviceId a; error := error a;
     capabilities := capabilities a; settings := settings a |}.

Definition set_selectedDeviceId (id : string) (a : AppState) : AppState :=
  {| streamRef := streamRef a; srcObject := srcObject a; devices := devices a;
     selectedDeviceId := id; error := error a;
     capabilities := capabilities a; settings := settings a |}.

Definition set_error (e : option string) (a : AppState) : AppState :=
  {| streamRef := streamRef a; srcObject := srcObject a; devices := devices a;
     selectedDeviceId := selectedDeviceId a; error := e;
     capabilities := capabilities a; settings := settings a |}.

Definition set_capabilities (c : CameraCapabilities) (a : AppState) : AppState :=
  {| streamRef := streamRef a; srcObject := srcObject a; devices := devices a;
     selectedDeviceId := selectedDeviceId a; error := error a;
     capabilities := c; settings := settings a |}.

(** [setSettings(prev => f(prev))] *)
Definition update_settings (f : CameraSettings -> CameraSettings) (a : AppState) : AppState :=
  {| streamRef := streamRef a; srcObject := srcObject a; devices := devices a;
     selectedDeviceId := selectedDeviceId a; error := error a;
     capabilities := capabilities a; settings := f (settings a) |}.

(** ** Computations: state and exceptions

    A computation runs on a world and either returns or throws; the world
    it leaves behind is kept in both cases. *)
Definition M (A : Type) : Type := World -> JS.settled A Error * World.

Definition ret {A} (a : A) : M A := fun w => (JS.Fulfilled a, w).

Definition throw {A} (e : Error) : M A := fun w => (JS.Rejected e, w).

Definition bind {A B} (m : M A) (k : A -> M B) : M B :=
  fun w =>
    match m w with
    | (JS.Fulfilled a, w') => k a w'
    | (JS.Rejected e, w') => (JS.Rejected e, w')
    end.

(** [try { m } catch (err) { handler(err) }] *)
Definition try_catch {A} (m : M A) (handler : Error -> M A) : M A :=
  fun w =>
    match m w with
    | (JS.Fulfilled a, w') => (JS.Fulfilled a, w')
    | (JS.Rejected e, w') => handler e w'
    end.

(** A step that cannot throw. *)
Definition effect (f : World -> World) : M unit := fun w => (JS.Fulfilled tt, f w).

Definition read {A} (f : World -> A) : M A := fun w => (JS.Fulfilled (f w), w).

Declare Scope js_scope.
Delimit Scope js_scope with js.
Notation "x <- m ;; k" := (bind m (fun x => k))
  (at level 100, m at level 99, k at level 200, right associativity) : js_scope.
Notation "m ;; k" := (bind m (fun _ => k))
  (at level 100, k at level 200, right associativity) : js_scope.
Local Open Scope js_scope.

(** The world a computation leaves, and whether it threw. *)
Definition exec {A} (m : M A) (w : World) : World := snd (m w).
Definition outcome {A} (m : M A) (w : World) : JS.settled A Error := fst (m w).

(** The TypeError raised by a method call on [undefined]; the text of
    its message depends on the engine, this one stands for it. *)
Definition TypeError : Error := "TypeError: Cannot read properties of undefined".

(** ** Host operations *)

(** [stream.getTracks().forEach(track => track.stop())] for the stream at
    [h]: one [stop] call per track, in order; every track ends. *)
Definition stop_all (s : MediaStream) : MediaStream :=
  {| source := source s; getTracks := map stop (getTracks s) |}.

Definition stopTracks (h : Handle) (w : World) : World :=
  match store w !! h with
  | Some s =>
      {| state := state w;
         store := <[h := stop_all s]> (store w);
         pending := pending w;
         log := log w ++ map (TrackStop h) (seq 0 (length (getTracks s))) |}
  | None => w
  end.

(** The promise of [getUserMedia] settles: on success the host has created
    a stream on the requested source, and the caller receives its handle;
    on failure the awaiting code throws. *)
Definition deliver (src : option string)
    (answer : JS.settled (list MediaStreamTrack) Error) : M Handle :=
  match answer with
  | JS.Rejected e => throw e
  | JS.Fulfilled tracks =>
      fun w => (JS.Fulfilled (length (store w)),
                with_store (fun st => st ++ [{| source := src; getTracks := tracks |}]) w)
  end.

(** [await p] for a promise that settles with [answer]. *)
Definition await {A} (answer : JS.settled A Error) : M A :=
  match answer with
  | JS.Rejected e => throw e
  | JS.Fulfilled a => ret a
  end.

(** [stream.getVideoTracks()[0]], [undefined] when there is none. *)
Definition first_video_track (h : Handle) (w : World) : option MediaStreamTrack :=
  s ← store w !! h; head (getVideoTracks s).

(** A method call on [stream.getVideoTracks()[0]]: a TypeError on [undefined]. *)
Definition the_track (t : option MediaStreamTrack) : M MediaStreamTrack :=
  match t with
  | Some t => ret t
  | None => throw TypeError
  end.

(** ** Device enumerator (App.tsx, lines 27-44) *)

Definition is_videoinput (device : MediaDeviceInfo) : bool :=
  match info_kind device with videoinput => true | _ => false end.

Definition to_camera (device : MediaDeviceInfo) : CameraDevice :=
  {| deviceId := info_deviceId device;
     label := if JS.truthy_string (info_label device) then info_label device
              else ("Camera " ++ JS.slice0 5 (info_deviceId device) ++ "...")%string |}.

Definition permission_message : string :=
  "Failed to access camera permissions. Please allow camera access.".

(** [perm] is how the permission request settles, [inventory] how the
    enumeration does. The stream obtained by the permission request is
    not kept, and not stopped. *)
Definition getCameras (perm : JS.settled (list MediaStreamTrack) Error)
    (inventory : JS.settled (list MediaDeviceInfo) Error) : M unit :=
  selectedDeviceId <- read (fun w => selectedDeviceId (state w));;
  try_catch
    (effect (call (GetUserMedia video_true));;
     _ <- deliver None perm;;
     effect (call EnumerateDevices);;
     devices <- await inventory;;
     let videoDevices := map to_camera (List.filter is_videoinput devices) in
     effect (with_state (set_devices videoDevices));;
     match videoDevices with
     | first :: _ =>
         if negb (JS.truthy_string selectedDeviceId)
         then effect (with_state (set_selectedDeviceId (deviceId first)))
         else ret tt
     | [] => ret tt
     end)
    (fun err => effect (with_state (set_error (Some permission_message)))).

(** ** Stream life cycle (App.tsx, lines 51-113) *)

Definition stream_message : string :=
  "Failed to start video stream. The camera might be in use by another app.".

(** The constraints [startStream] passes to [getUserMedia]. *)
Definition open_constraints (id : string) : MediaStreamConstraints :=
  video_device id 1920 1080 [ {| c_key := KfocusMode; c_value := "continuous" |} ].

(** [if (streamRef.current) streamRef.current.getTracks().forEach(...)] *)
Definition stop_previous : M unit :=
  current <- read (fun w => streamRef (state w));;
  match current with
  | Some h => effect (stopTracks h)
  | None => ret tt
  end.

(** [startStream] up to its [await]: the guard, the release of the stream
    held, and the request, which stays in flight. *)
Definition startStream : M unit :=
  selectedDeviceId <- read (fun w => selectedDeviceId (state w));;
  if negb (JS.truthy_string selectedDeviceId) then ret tt
  else
    stop_previous;;
    effect (call (GetUserMedia (open_constraints selectedDeviceId)));;
    effect (with_pending (fun p => p ++ [selectedDeviceId])).

(** [startStream] from its [await] on, when the request made for [id]
    settles with [answer]. *)
Definition startStream_resume (id : string)
    (answer : JS.settled (list MediaStreamTrack) Error) : M unit :=
  try_catch
    (stream <- deliver (Some id) answer;;
     effect (with_state (set_streamRef (Some stream)));;
     effect (with_state (set_srcObject (Some stream)));;
     first <- read (first_video_track stream);;
     track <- the_track first;;
     let caps := getCapabilities track in
     let currentSettings := getSettings track in
     effect (with_state (set_capabilities caps));;
     effect (with_state (update_settings (fun prev => reconcile prev caps currentSettings)));;
     effect (with_state (set_error None)))
    (fun err =>
       effect (call (ConsoleError err));;
       effect (with_state (set_error (Some stream_message)))).

(** The effect on [selectedDeviceId] (lines 104-113) when the selection
    becomes [id]: the clean-up of the previous run, then [startStream]. *)
Definition open (id : string) : M unit :=
  effect (with_state (set_selectedDeviceId id));;
  stop_previous;;
  if JS.truthy_string id then startStream else ret tt.

(** The [i]-th request in flight settles. *)
Definition settle (i : nat) (answer : JS.settled (list MediaStreamTrack) Error) : M unit :=
  p <- read pending;;
  match p !! i with
  | Some id => effect (with_pending (delete i));; startStream_resume id answer
  | None => ret tt
  end.

(** ** Constraint applier (App.tsx, lines 116-136)

    [answer] is how the promise of [track.applyConstraints] settles. *)
Definition applyConstraint (constraint : Constraint) (answer : JS.settled unit Error) : M unit :=
  current <- read (fun w => streamRef (state w));;
  match current with
  | None => ret tt
  | Some h =>
      first <- read (first_video_track h);;
      try_catch
        (_ <- the_track first;;
         effect (call (ApplyConstraints h [constraint]));;
         await answer)
        (fun err => effect (call (ConsoleWarn (Some constraint) err)))
  end.

Definition updateSetting (key : Key) (value : field_type key)
    (answer : JS.settled unit Error) : M unit :=
  effect (with_state (update_settings (set key value)));;
  applyConstraint {| c_key := key; c_value := value |} answer.

(** [rendered] is the [settings] of the render the handler was created
    in: the handler reads it from its closure, not from the state. *)
Definition toggleFocusMode (rendered : CameraSettings) (answer : JS.settled unit Error)
    : M unit :=
  let newMode :=
    if String.eqb (focusMode rendered) "continuous" then "manual" else "continuous" in
  updateSetting KfocusMode newMode answer.

(** ** Sessions: opens and their results, in any order of arrival *)

Inductive Event :=
| Open (id : string)
| Settle (i : nat) (answer : JS.settled (list MediaStreamTrack) Error).

Definition fire (e : Event) : M unit :=
  match e with
  | Open id => open id
  | Settle i answer => settle i answer
  end.

Definition run (es : list Event) (w : World) : World :=
  fold_left (fun w e => exec (fire e) w) es w.

(** The device of the stream held, if one is held. *)
Definition active_device (w : World) : option string :=
  h ← streamRef (state w); s ← store w !! h; source s.

(** The handles of the streams that have a track running. *)
Definition live_handles (w : World) : list Handle :=
  List.filter (fun h => match store w !! h with
                        | Some s => stream_live s
                        | None => false
                        end)
              (seq 0 (length (store w))).

(** Sessions in which no open is issued while another is in flight. *)
Inductive Serial : World -> Prop :=
| Serial_initial : Serial initial_world
| Serial_open id w : Serial w -> pending w = [] -> Serial (exec (open id) w)
| Serial_settle i answer w : Serial w -> Serial (exec (settle i answer) w).

(** ** Script request (services/geminiService.ts, components/ScriptGenerator.tsx) *)

Module Service.

Inductive OS := WINDOWS | LINUX | MACOS.

Definition os_name (o : OS) : string :=
  match o with
  | WINDOWS => "Windows"
  | LINUX => "Linux"
  | MACOS => "macOS"
  end.

Inductive ScriptType := native | python.

Record ScriptGenerationParams := {
  os : OS;
  cameraName : string;
  p_settings : CameraSettings;
  scriptType : ScriptType;
}.

(** What the service module sends out, in order. *)
Inductive ServiceCall :=
| GenerateContent (apiKey model contents : string)
| LogError (e : Error).

Definition missing_key_message : string :=
  "API Key is missing. Please set the API_KEY environment variable in your deployment settings.".

Definition nl : string := String (ascii_of_nat 10) EmptyString.
Definition dq : string := String (ascii_of_nat 34) EmptyString.

(** The lines of a template literal. *)
Definition lines (l : list string) : string := String.concat nl l.

(** [error.includes(needle)] *)
Fixpoint includes (needle s : string) : bool :=
  if String.prefix needle s then true
  else match s with
       | EmptyString => false
       | String _ rest => includes needle rest
       end.

Section Generation.

(** The text JavaScript interpolates for a number in a template literal. *)
Variable show : JS.number -> string.

Definition python_prompt (params : ScriptGenerationParams) : string :=
  lines [
    EmptyString;
    "    You are an expert system automation engineer.";
    "    The user wants a Python script to enforce webcam settings.";
    "    CRITICAL REQUIREMENT: The user intends to compile this script into a standalone executable (e.g., .exe for Windows) so it can run on systems WITHOUT Python installed.";
    EmptyString;
    ("    Target OS: " ++ os_name (os params))%string;
    ("    Camera Name: " ++ dq ++ cameraName params ++ dq)%string;
    "    ";
    "    Desired Settings:";
    ("    - Autofocus: " ++ (if String.eqb (focusMode (p_settings params)) "continuous" then "On" else "Off (Manual)"))%string;
    ("    - Focus Distance: " ++ show (focusDistance (p_settings params)))%string;
    ("    - Zoom: " ++ show (zoom (p_settings params)))%string;
    ("    - Brightness: " ++ show (brightness (p_settings params)))%string;
    ("    - Contrast: " ++ show (contrast (p_settings params)))%string;
    EmptyString;
    "    Task:";
    "    Generate a Python script.";
    "    ";
    "    Requirements:";
    "    1. Use a robust library like 'opencv-python' (cv2) or standard platform libraries ('ctypes' for Windows DirectShow if cv2 is unreliable for specific focus control, or 'v4l2' ioctls for Linux). Prefer OpenCV for simplicity if it supports the properties, but ensure it works.";
    "    2. The script must attempt to find the camera by name or try the first available index.";
    "    3. The script should apply the settings and exit.";
    "    ";
    "    Documentation Requirements (Include as a comment block at the VERY TOP of the code):";
    "    1. List necessary pip packages (e.g., 'pip install opencv-python pyinstaller').";
    "    2. Provide the EXACT command to compile this script into a standalone executable using PyInstaller (e.g., 'pyinstaller --onefile --noconsole script.py').";
    "    3. Explain how to schedule the resulting executable on startup (Task Scheduler/Cron).";
    EmptyString;
    "    Output Format:";
    "    Return ONLY the markdown code block containing the Python code.";
    "    " ].

Definition native_prompt (params : ScriptGenerationParams) : string :=
  lines [
    EmptyString;
    "    You are an expert system automation engineer.";
    "    The user wants to persist webcam settings for their device so they remain set even after a reboot.";
    "    ";
    ("    Target OS: " ++ os_name (os params))%string;
    ("    Camera Name: " ++ dq ++ cameraName params ++ dq)%string;
    "    ";
    "    Desired Settings:";
    ("    - Autofocus: " ++ (if String.eqb (focusMode (p_settings params)) "continuous" then "On" else "Off (Manual)"))%string;
    ("    - Focus Distance: " ++ show (focusDistance (p_settings params)) ++ " (Normalized value 0-1 or raw driver value)")%string;
    ("    - Zoom: " ++ show (zoom (p_settings params)))%string;
    ("    - Brightness: " ++ show (brightness (p_settings params)))%string;
    ("    - Contrast: " ++ show (contrast (p_settings params)))%string;
    EmptyString;
    "    Task:";
    "    Generate a complete, ready-to-use script (PowerShell for Windows, Bash for Linux/macOS) that applies these settings.";
    "    ";
    "    Specific Requirements:";
    "    1. If Windows, use PowerShell. Suggest using 'FocusLock' helper or generic 'DirectShow' interface via ffmpeg or similar if native cmdlets aren't available. If specific Logitech CLI tools (like Logi Tune or GHub) are common, mention how to interface with them, but prefer a generic DirectShow approach if possible. ";
    "    2. If Linux, use 'v4l2-ctl'. This is the standard.";
    "    3. Include comments explaining exactly how to run this script on startup (e.g., Task Scheduler for Windows, Cron or systemd for Linux).";
    "    4. Make the script robust.";
    "    ";
    "    Output Format:";
    "    Return ONLY the markdown code block containing the script and the setup instructions. Do not include conversational filler before or after.";
    "    " ].

(** [API_KEY] is [process.env.API_KEY], [None] when it, [process] or
    [process.env] is undefined. [answer] is how the call to the service
    settles; the text of the response is returned. *)
Definition generateSystemScript (API_KEY : option string)
    (params : ScriptGenerationParams) (answer : JS.settled string Error)
    : list ServiceCall * JS.settled string Error :=
  match API_KEY with
  | None => ([], JS.Rejected missing_key_message)
  | Some apiKey =>
      if negb (JS.truthy_string apiKey) then ([], JS.Rejected missing_key_message)
      else
        let prompt :=
          match scriptType params with
          | python => python_prompt params
          | native => native_prompt params
          end in
        let request := GenerateContent apiKey "gemini-3-flash-preview" prompt in
        match answer with
        | JS.Fulfilled text => ([request], JS.Fulfilled text)
        | JS.Rejected error => ([request; LogError error], JS.Rejected error)
        end
  end.

(** The state of the script panel. *)
Record Panel := {
  selectedOS : OS;
  panel_scriptType : ScriptType;
  generatedScript : string;
  isLoading : bool;
  panel_error : option string;
}.

(** [handleGenerate], run to completion. *)
Definition handleGenerate (API_KEY : option string) (currentSettings : CameraSettings)
    (cameraLabel : string) (answer : JS.settled string Error) (p : Panel)
    : list ServiceCall * Panel :=
  let params :=
    {| os := selectedOS p;
       cameraName := if JS.truthy_string cameraLabel then cameraLabel else "Default Camera";
       p_settings := currentSettings;
       scriptType := panel_scriptType p |} in
  match generateSystemScript API_KEY params answer with
  | (calls, JS.Fulfilled script) =>
      (calls, {| selectedOS := selectedOS p; panel_scriptType := panel_scriptType p;
                 generatedScript := script; isLoading := false; panel_error := None |})
  | (calls, JS.Rejected message) =>
      (calls, {| selectedOS := selectedOS p; panel_scriptType := panel_scriptType p;
                 generatedScript := generatedScript p; isLoading := false;
                 panel_error := Some message |})
  end.

End Generation.

(** The test under which the panel shows how to configure the credential:
    [error.includes("API Key is missing") || error.includes("API_KEY")]. *)
Definition shows_credential_help (error : string) : bool :=
  includes "API Key is missing" error || includes "API_KEY" error.

End Service.

(** ** Vocabulary of the properties *)

Inductive NumericKey := NfocusDistance | Nzoom | Nbrightness | Ncontrast.

Definition value_of (k : NumericKey) (s : CameraSettings) : JS.number :=
  match k with
  | NfocusDistance => focusDistance s
  | Nzoom => zoom s
  | Nbrightness => brightness s
  | Ncontrast => contrast s
  end.

(** What the track reports for a field. *)
Definition reported (k : NumericKey) (H : MediaTrackSettings) : option JS.number :=
  match k with
  | NfocusDistance => cur_focusDistance H
  | Nzoom => cur_zoom H
  | Nbrightness => cur_brightness H
  | Ncontrast => cur_contrast H
  end.

Definition range_of (k : NumericKey) (C : CameraCapabilities) : option Range :=
  match k with
  | NfocusDistance => caps_focusDistance C
  | Nzoom => caps_zoom C
  | Nbrightness => caps_brightness C
  | Ncontrast => caps_contrast C
  end.

(** The literal that ends the [||] chain of a field in [startStream]. *)
Definition default_of (k : NumericKey) : JS.number :=
  match k with
  | NfocusDistance => JS.lit 0
  | Nzoom => JS.lit 1
  | Nbrightness => JS.lit 100
  | Ncontrast => JS.lit 100
  end.

(** [min <= v <= max] *)
Definition in_range (v : JS.number) (r : Range) : bool :=
  JS.le (min r) v && JS.le v (max r).




(** Sample inputs: the zoom range of the specification's scenario, and a
    track that reports nothing. *)
Definition tenth : JS.number := S754_finite false 7205759403792794 (-56).

Definition zoom_1_to_5 : CameraCapabilities :=
  {| caps_focusMode := None; caps_focusDistance := None;
     caps_zoom := Some {| min := JS.lit 1; max := JS.lit 5; step := tenth |};
     caps_brightness := None; caps_contrast := None;
     caps_saturation := None; caps_sharpness := None |}.

Definition reports_nothing : MediaTrackSettings :=
  {| cur_focusMode := None; cur_focusDistance := None; cur_zoom := None;
     cur_brightness := None; cur_contrast := None |}.

Definition reports_zoom (z : JS.number) : MediaTrackSettings :=
  {| cur_focusMode := None; cur_focusDistance := None; cur_zoom := Some z;
     cur_brightness := None; cur_contrast := None |}.

Definition brightness_0_to_255 : CameraCapabilities :=
  {| caps_focusMode := None; caps_focusDistance := None; caps_zoom := None;
     caps_brightness := Some {| min := JS.lit 0; max := JS.lit 255; step := JS.lit 1 |};
     caps_contrast := None; caps_saturation := None; caps_sharpness := None |}.

Definition reports_brightness (b : JS.number) : MediaTrackSettings :=
  {| cur_focusMode := None; cur_focusDistance := None; cur_zoom := None;
     cur_brightness := Some b; cur_contrast := None |}.

(** A prior model whose contrast is no longer the initial one, as it is
    after a stream whose track reported contrast 50. *)
Definition contrast_50 : CameraSettings := set Kcontrast (JS.lit 50) initial_settings.

(** The world after a request for [id] is granted [tracks], when the first
    video track is [track]. *)
Definition opened (id : string) (tracks : list MediaStreamTrack)
    (track : MediaStreamTrack) (w : World) : World :=
  {| state :=
       {| streamRef := Some (length (store w));
          srcObject := Some (length (store w));
          devices := devices (state w);
          selectedDeviceId := selectedDeviceId (state w);
          error := None;
          capabilities := getCapabilities track;
          settings := reconcile (settings (state w)) (getCapabilities track) (getSettings track) |};
     store := store w ++ [{| source := Some id; getTracks := tracks |}];
     pending := pending w;
     log := log w |}.

(** A running camera that advertises [caps] and reports [cur]. *)
Definition camera (caps : CameraCapabilities) (cur : MediaTrackSettings) : MediaStreamTrack :=
  {| kind := video; readyState := live; getCapabilities := caps; getSettings := cur |}.

(** A first enumeration that finds one camera, then a refresh after the
    permission was withdrawn. *)
Definition cam_a : MediaDeviceInfo :=
  {| info_deviceId := "a"; info_kind := videoinput; info_label := "Cam A" |}.

Definition enumerated_once : World :=
  exec (getCameras (JS.Fulfilled [camera no_capabilities reports_nothing])
                   (JS.Fulfilled [cam_a])) initial_world.

(** What [stop_previous] does to a world. *)
Definition release (w : World) : World :=
  match streamRef (state w) with
  | Some h => stopTracks h w
  | None => w
  end.



(** No stream of the store has a running track. *)
Definition all_ended (w : World) : Prop :=
  forall h s, store w !! h = Some s -> stream_live s = false.

(** At most one request is in flight; a stream with a running track is the
    one held, and then no request is in flight. *)
Definition one_at_a_time (w : World) : Prop :=
  length (pending w) <= 1
  /\ forall h s, store w !! h = Some s -> stream_live s = true ->
       streamRef (state w) = Some h /\ pending w = [].

(** A session with one stream held, on device "a". *)
Definition holding_a : World :=
  exec (settle 0 (JS.Fulfilled [camera no_capabilities reports_nothing]))
       (exec (open "a") initial_world).

(** ** The rest of the application (App.tsx, lines 133-136 and 229-268) *)

(** [a ?? d] *)
Definition nullish (a : option JS.number) (d : JS.number) : JS.number :=
  match a with
  | Some x => x
  | None => d
  end.

(** The literal [0.01]. *)
Definition hundredth : JS.number := S754_finite false 5764607523034235 (-59).

(** The properties a [ControlSlider] is rendered with. *)
Record ControlSliderProps := {
  slider_label : string;
  slider_value : JS.number;
  slider_min : JS.number;
  slider_max : JS.number;
  slider_step : JS.number;
  slider_disabled : bool;
  slider_unit : string;
}.

Definition focusDistance_slider (a : AppState) : ControlSliderProps :=
  {| slider_label := "Manual Focus Distance";
     slider_value := focusDistance (settings a);
     slider_min := nullish (min <$> caps_focusDistance (capabilities a)) (JS.lit 0);
     slider_max := nullish (max <$> caps_focusDistance (capabilities a)) (JS.lit 1);
     slider_step := nullish (step <$> caps_focusDistance (capabilities a)) hundredth;
     slider_disabled := String.eqb (focusMode (settings a)) "continuous";
     slider_unit := EmptyString |}.

Definition zoom_slider (a : AppState) : ControlSliderProps :=
  {| slider_label := "Zoom";
     slider_value := zoom (settings a);
     slider_min := nullish (min <$> caps_zoom (capabilities a)) (JS.lit 1);
     slider_max := nullish (max <$> caps_zoom (capabilities a)) (JS.lit 5);
     slider_step := nullish (step <$> caps_zoom (capabilities a)) tenth;
     slider_disabled := false;
     slider_unit := "x" |}.

Definition brightness_slider (a : AppState) : ControlSliderProps :=
  {| slider_label := "Brightness";
     slider_value := brightness (settings a);
     slider_min := nullish (min <$> caps_brightness (capabilities a)) (JS.lit 0);
     slider_max := nullish (max <$> caps_brightness (capabilities a)) (JS.lit 255);
     slider_step := nullish (step <$> caps_brightness (capabilities a)) (JS.lit 1);
     slider_disabled := false;
     slider_unit := EmptyString |}.

(** The three sliders rendered, by the field they edit. *)
Inductive SliderKey := SfocusDistance | Szoom | Sbrightness.

Definition slider (k : SliderKey) (a : AppState) : ControlSliderProps :=
  match k with
  | SfocusDistance => focusDistance_slider a
  | Szoom => zoom_slider a
  | Sbrightness => brightness_slider a
  end.

Definition slider_field (k : SliderKey) : NumericKey :=
  match k with
  | SfocusDistance => NfocusDistance
  | Szoom => Nzoom
  | Sbrightness => Nbrightness
  end.

(** [min <= value <= max] for a slider. *)
Definition within_slider (p : ControlSliderProps) : bool :=
  JS.le (slider_min p) (slider_value p) && JS.le (slider_value p) (slider_max p).

(** The label handed to the script panel:
    [devices.find(d => d.deviceId === selectedDeviceId)?.label || ''] *)
Definition cameraLabel (a : AppState) : string :=
  JS.or_string
    (label <$> List.find (fun d => String.eqb (deviceId d) (selectedDeviceId a)) (devices a))
    EmptyString.

(** ** Whole sessions: every operation of the component *)

Inductive Action :=
| Select (id : string)
| Arrive (i : nat) (answer : JS.settled (list MediaStreamTrack) Error)
| Refresh (perm : JS.settled (list MediaStreamTrack) Error)
          (inventory : JS.settled (list MediaDeviceInfo) Error)
| Update (key : Key) (value : field_type key) (answer : JS.settled unit Error)
| ToggleFocus (rendered : CameraSettings) (answer : JS.settled unit Error).

Definition perform (a : Action) : M unit :=
  match a with
  | Select id => open id
  | Arrive i answer => settle i answer
  | Refresh perm inventory => getCameras perm inventory
  | Update key value answer => updateSetting key value answer
  | ToggleFocus rendered answer => toggleFocusMode rendered answer
  end.

Definition play (actions : list Action) (w : World) : World :=
  fold_left (fun w a => exec (perform a) w) actions w.

(** The worlds a session goes through. *)
Inductive Session : World -> Prop :=
| Session_start : Session initial_world
| Session_step a w : Session w -> Session (exec (perform a) w).

(** References and requests are sound: the video element shows the stream
    held, the stream held is in the store, every request in flight and
    every stream opened on a device is for a non-empty id, and every
    device listed has a label. *)
Definition well_formed (w : World) : Prop :=
  srcObject (state w) = streamRef (state w)
  /\ (forall h, streamRef (state w) = Some h -> h < length (store w))
  /\ Forall (fun id => JS.truthy_string id = true) (pending w)
  /\ (forall h s id, store w !! h = Some s -> source s = Some id -> JS.truthy_string id = true)
  /\ Forall (fun d => label d <> EmptyString) (devices (state w)).

(** [w'] comes after [w]: the log is extended, and each stream of [w] is
    still there, untouched or with all its tracks stopped. *)
Definition evolves (w w' : World) : Prop :=
  (exists calls, log w' = log w ++ calls)
  /\ forall h s, store w !! h = Some s ->
       store w' !! h = Some s \/ store w' !! h = Some (stop_all s).

(** Calls that release or acquire the camera. *)
Definition releases_or_requests (c : HostCall) : bool :=
  match c with
  | GetUserMedia _ | TrackStop _ _ => true
  | _ => false
  end.

Definition is_apply (c : HostCall) : bool :=
  match c with
  | ApplyConstraints _ _ => true
  | _ => false
  end.

(** The live stream, if any, is the one held, on the device selected, and
    every request in flight is for the device selected. *)
Definition on_selected (w : World) : Prop :=
  (forall d, In d (pending w) -> d = selectedDeviceId (state w))
  /\ forall h s, store w !! h = Some s -> stream_live s = true ->
       streamRef (state w) = Some h /\ source s = Some (selectedDeviceId (state w)).

(** A stream opened by [startStream], on a device; the stream of the
    permission request of [getCameras] is on none. *)
Definition on_device (s : MediaStream) : bool :=
  match source s with
  | Some _ => true
  | None => false
  end.

(** The handles of the streams opened by [startStream] that have a track
    running. *)
Definition live_opened_handles (w : World) : list Handle :=
  List.filter (fun h => match store w !! h with
                        | Some s => on_device s && stream_live s
                        | None => false
                        end)
              (seq 0 (length (store w))).

(** Sessions of the component, of any of its operations, in which no
    open is issued while another is in flight. *)
Inductive Orderly : World -> Prop :=
| Orderly_start : Orderly initial_world
| Orderly_select id w : Orderly w -> pending w = [] -> Orderly (exec (perform (Select id)) w)
| Orderly_other a w :
    Orderly w -> (forall id, a <> Select id) -> Orderly (exec (perform a) w).

(** At most one request is in flight; a stream opened by [startStream]
    with a running track is the one held, and then no request is in
    flight. *)
Definition one_opened_at_a_time (w : World) : Prop :=
  length (pending w) <= 1
  /\ forall h s, store w !! h = Some s -> on_device s = true -> stream_live s = true ->
       streamRef (state w) = Some h /\ pending w = [].

(** A session that starts as the component does: the device list is
    fetched, then a device is selected and its stream delivered. *)
Definition refreshed_holding_a : World :=
  play [ Refresh (JS.Fulfilled [camera no_capabilities reports_nothing]) (JS.Fulfilled [cam_a]);
         Select "a";
         Arrive 0 (JS.Fulfilled [camera no_capabilities reports_nothing]) ]
       initial_world.

(** ** Closed forms of the operations *)

(** The mode [toggleFocusMode] switches to. *)
Definition toggled (mode : string) : string :=
  if String.eqb mode "continuous" then "manual" else "continuous".

(** The calls [applyConstraint] makes. *)
Definition applied_calls (c : Constraint) (answer : JS.settled unit Error) (w : World)
    : list HostCall :=
  match streamRef (state w) with
  | None => []
  | Some h =>
      match first_video_track h w with
      | None => [ConsoleWarn (Some c) TypeError]
      | Some _ =>
          ApplyConstraints h [c]
          :: match answer with
             | JS.Fulfilled _ => []
             | JS.Rejected e => [ConsoleWarn (Some c) e]
             end
      end
  end.

(** The React state after an enumeration that found [inventory]. *)
Definition enumerated (inventory : list MediaDeviceInfo) (a : AppState) : AppState :=
  let videoDevices := map to_camera (List.filter is_videoinput inventory) in
  match videoDevices with
  | first :: _ =>
      if JS.truthy_string (selectedDeviceId a) then set_devices videoDevices a
      else set_selectedDeviceId (deviceId first) (set_devices videoDevices a)
  | [] => set_devices videoDevices a
  end.

(** The world after a request for [id] is granted tracks none of which is
    a video track. *)
Definition held_without_video (id : string) (tracks : list MediaStreamTrack) (w : World)
    : World :=
  {| state :=
       set_error (Some stream_message)
         (set_srcObject (Some (length (store w)))
            (set_streamRef (Some (length (store w))) (state w)));
     store := store w ++ [{| source := Some id; getTracks := tracks |}];
     pending := pending w;
     log := log w ++ [ConsoleError TypeError] |}.

(** A foreign focus mode, as a track may report it. *)
Definition single_shot : CameraSettings := set KfocusMode "single-shot" initial_settings.

(** * Properties *)

(** ** Numbers *)

Lemma number_le_refl (x : JS.number) : x <> S754_nan -> JS.le x x = true.
Proof.
  intros Hnan. unfold JS.le, SFleb.
  destruct x as [s | s | | s m e]; try congruence; simpl.
  - reflexivity.
  - destruct s; reflexivity.
  - destruct s; rewrite Z.compare_refl, Pos.compare_cont_refl; reflexivity.
Qed.

Lemma truthy_not_nan (x : JS.number) : JS.truthy x = true -> x <> S754_nan.
Proof. destruct x; simpl; congruence. Qed.

(** ** The numeric fields, uniformly *)

Lemma reconcile_field prev C H k :
  value_of k (reconcile prev C H)
  = JS.or_num (JS.or (reported k H) (min_of (range_of k C))) (default_of k).
Proof. destruct k; reflexivity. Qed.

Lemma reconcile_focusMode prev C H :
  focusMode (reconcile prev C H) = JS.or_string (cur_focusMode H) "continuous".
Proof. reflexivity. Qed.

(** No field of the result is taken from the prior model. *)
Lemma reconcile_ignores_prior prev prev' C H :
  reconcile prev C H = reconcile prev' C H.
Proof. reflexivity. Qed.

(** The scenario of the specification: zoom range 1 to 5 by 0.1, current
    zoom 1; the reconciled zoom is 1, and 3 once the user sets it to 3. *)
Example scenario_zoom :
  let w := exec (settle 0 (JS.Fulfilled [camera zoom_1_to_5 (reports_zoom (JS.lit 1))]))
                (exec (open "a") initial_world) in
  zoom (settings (state w)) = JS.lit 1
  /\ zoom (settings (state (exec (updateSetting Kzoom (JS.lit 3) (JS.Fulfilled tt)) w)))
     = JS.lit 3
  /\ log (exec (updateSetting Kzoom (JS.lit 3) (JS.Fulfilled tt)) w)
     = log w ++ [ApplyConstraints 0 [ {| c_key := Kzoom; c_value := JS.lit 3 |} ]].
Proof. repeat split. Qed.

(** [||] takes a reported 0 for an absent value: the minimum is chosen
    instead, and the literal when the minimum is 0 as well. *)
Example reported_zero_is_skipped :
  brightness (reconcile initial_settings brightness_0_to_255 (reports_brightness (JS.lit 0)))
  = JS.lit 100
  /\ zoom (reconcile initial_settings zoom_1_to_5 (reports_zoom (JS.lit 0))) = JS.lit 1.
Proof. split; reflexivity. Qed.

(** ** C2: the range invariant after reconciliation *)

(** C2, as stated, fails: the track reports zoom 10 while the advertised
    zoom range is [1, 5]; the reconciled zoom is 10, outside the range. *)
Lemma reconcile_keeps_out_of_range_report :
  range_of Nzoom zoom_1_to_5 = Some {| min := JS.lit 1; max := JS.lit 5; step := tenth |}
  /\ value_of Nzoom (reconcile initial_settings zoom_1_to_5 (reports_zoom (JS.lit 10)))
     = JS.lit 10
  /\ in_range (JS.lit 10) {| min := JS.lit 1; max := JS.lit 5; step := tenth |} = false.
Proof. repeat split. Qed.

(** C2 (amended): every numeric field for which the capabilities define a
    range with minimum not above maximum lies within that range after
    reconciliation, provided the value the hardware reports for the
    field, when it reports one, lies within the range, and the reported
    value or else the minimum is a non-zero number. *)
Theorem reconcile_within_range prev C H k r :
  range_of k C = Some r ->
  JS.le (min r) (max r) = true ->
  (forall v, reported k H = Some v -> in_range v r = true) ->
  JS.truthy (min r) = true \/ (exists v, reported k H = Some v /\ JS.truthy v = true) ->
  in_range (value_of k (reconcile prev C H)) r = true.
Proof.
  intros Hr Hle Hhw Hnonzero.
  rewrite reconcile_field, Hr. simpl.
  assert (Hself : JS.truthy (min r) = true -> in_range (min r) r = true).
  { intros Hmin. unfold in_range.
    rewrite number_le_refl by (apply truthy_not_nan; exact Hmin).
    rewrite Hle. reflexivity. }
  destruct (reported k H) as [v|] eqn:Hv; simpl.
  - destruct (JS.truthy v) eqn:Htv; simpl.
    + rewrite Htv. apply Hhw. reflexivity.
    + destruct Hnonzero as [Hmin | (v' & Hv' & Htv')].
      * rewrite Hmin. apply Hself. exact Hmin.
      * injection Hv' as <-. congruence.
  - destruct Hnonzero as [Hmin | (v' & Hv' & _)]; [| discriminate Hv'].
    rewrite Hmin. apply Hself. exact Hmin.
Qed.

Lemma reconcile_within_range_witness :
  in_range (value_of Nzoom (reconcile initial_settings zoom_1_to_5 reports_nothing))
           {| min := JS.lit 1; max := JS.lit 5; step := tenth |} = true
  /\ in_range (value_of Nbrightness
                 (reconcile initial_settings brightness_0_to_255 (reports_brightness (JS.lit 128))))
              {| min := JS.lit 0; max := JS.lit 255; step := JS.lit 1 |} = true.
Proof.
  split.
  - apply (reconcile_within_range initial_settings zoom_1_to_5 reports_nothing Nzoom).
    + reflexivity.
    + reflexivity.
    + intros v Hv. discriminate Hv.
    + left. reflexivity.
  - apply (reconcile_within_range initial_settings brightness_0_to_255
             (reports_brightness (JS.lit 128)) Nbrightness).
    + reflexivity.
    + reflexivity.
    + intros v Hv. simpl in Hv. injection Hv as <-. reflexivity.
    + right. exists (JS.lit 128). split; reflexivity.
Defined.

(** ** C3: the precedence of reconciliation *)



(** The three levels of the precedence, and a reported 0 falling through
    to the minimum. *)
Example reconcile_precedence_levels :
  value_of Nzoom (reconcile contrast_50 zoom_1_to_5 (reports_zoom (JS.lit 3))) = JS.lit 3
  /\ value_of Nzoom (reconcile contrast_50 zoom_1_to_5 reports_nothing) = JS.lit 1
  /\ value_of Ncontrast (reconcile contrast_50 no_capabilities reports_nothing) = JS.lit 100
  /\ value_of Nbrightness
       (reconcile contrast_50
          {| caps_focusMode := None; caps_focusDistance := None; caps_zoom := None;
             caps_brightness := Some {| min := JS.lit (-64); max := JS.lit 64;
                                        step := JS.lit 1 |};
             caps_contrast := None; caps_saturation := None; caps_sharpness := None |}
          (reports_brightness (JS.lit 0)))
     = JS.lit (-64).
Proof. repeat split. Qed.

(** ** C9: a single-field update changes that field only *)

Lemma get_set_same k v s : get k (set k v s) = v.
Proof. destruct k; reflexivity. Qed.

Lemma get_set_other k k' v s : k' <> k -> get k' (set k v s) = get k' s.
Proof. intros Hne. destruct k, k'; try reflexivity; congruence. Qed.

(** What [applyConstraint] leaves of the React state: all of it. *)
Lemma applyConstraint_state c answer w : state (exec (applyConstraint c answer) w) = state w.
Proof.
  unfold exec, applyConstraint, bind, read, try_catch, the_track, effect, await.
  destruct (streamRef (state w)) as [h|]; [| reflexivity].
  destruct (first_video_track h w); [| reflexivity].
  destruct answer; reflexivity.
Qed.

(** C9: after [updateSetting key value], the settings model holds [value]
    at [key] and is unchanged at every other field, however the hardware
    answers. *)
Theorem updateSetting_frame key value answer w :
  get key (settings (state (exec (updateSetting key value answer) w))) = value
  /\ forall k', k' <> key ->
       get k' (settings (state (exec (updateSetting key value answer) w)))
       = get k' (settings (state w)).
Proof.
  assert (E : settings (state (exec (updateSetting key value answer) w))
              = set key value (settings (state w))).
  { unfold updateSetting, exec, bind, effect.
    change (snd (applyConstraint ?c ?a ?w')) with (exec (applyConstraint c a) w').
    rewrite applyConstraint_state. reflexivity. }
  rewrite E. split.
  - apply get_set_same.
  - intros k' Hne. apply get_set_other; exact Hne.
Qed.

Lemma updateSetting_frame_witness :
  get Kzoom (settings (state (exec (updateSetting Kzoom (JS.lit 3) (JS.Fulfilled tt)) initial_world)))
  = JS.lit 3
  /\ get Kbrightness (settings (state (exec (updateSetting Kzoom (JS.lit 3) (JS.Fulfilled tt)) initial_world)))
     = get Kbrightness (settings (state initial_world)).
Proof.
  destruct (updateSetting_frame Kzoom (JS.lit 3) (JS.Fulfilled tt) initial_world) as [Hsame Hother].
  split; [exact Hsame | apply Hother; discriminate].
Defined.

(** ** The continuation of [startStream], in closed form *)

Lemma first_video_track_delivered w w' src tracks :
  store w' = store w ++ [{| source := src; getTracks := tracks |}] ->
  first_video_track (length (store w)) w' = head (List.filter is_video tracks).
Proof.
  intros Hstore. unfold first_video_track. rewrite Hstore.
  rewrite list_lookup_middle by reflexivity. reflexivity.
Qed.

Lemma startStream_resume_granted id tracks track w :
  head (List.filter is_video tracks) = Some track ->
  startStream_resume id (JS.Fulfilled tracks) w = (JS.Fulfilled tt, opened id tracks track w).
Proof.
  intros Hfirst.
  unfold startStream_resume, try_catch, bind, deliver, effect, read.
  erewrite first_video_track_delivered by reflexivity.
  rewrite Hfirst. reflexivity.
Qed.

(** Granted or not, with or without a video track, the continuation
    returns normally; when granted, the stream delivered is the one held. *)
Lemma startStream_resume_holds id tracks w :
  active_device (exec (startStream_resume id (JS.Fulfilled tracks)) w) = Some id
  /\ pending (exec (startStream_resume id (JS.Fulfilled tracks)) w) = pending w.
Proof.
  unfold exec, startStream_resume, try_catch, bind, deliver, effect, read.
  erewrite first_video_track_delivered by reflexivity.
  destruct (head (List.filter is_video tracks)); simpl;
    unfold active_device; simpl;
    rewrite list_lookup_middle by reflexivity; split; reflexivity.
Qed.

(** ** C8: reconciliation is deterministic *)

(** C8: two runs of the continuation of [startStream] that start from the
    same settings model and whose tracks advertise the same capabilities
    and report the same values end with the same settings model, whatever
    else differs between the two sessions (device, stream store, pending
    requests, log, the rest of the React state); that model is
    [reconcile] of the three inputs. *)
Theorem reconcile_deterministic w1 w2 id1 id2 tracks1 tracks2 track1 track2 :
  settings (state w1) = settings (state w2) ->
  head (getVideoTracks {| source := Some id1; getTracks := tracks1 |}) = Some track1 ->
  head (getVideoTracks {| source := Some id2; getTracks := tracks2 |}) = Some track2 ->
  getCapabilities track1 = getCapabilities track2 ->
  getSettings track1 = getSettings track2 ->
  settings (state (exec (startStream_resume id1 (JS.Fulfilled tracks1)) w1))
  = settings (state (exec (startStream_resume id2 (JS.Fulfilled tracks2)) w2))
  /\ settings (state (exec (startStream_resume id1 (JS.Fulfilled tracks1)) w1))
     = reconcile (settings (state w1)) (getCapabilities track1) (getSettings track1).
Proof.
  intros Hprior H1 H2 Hcaps Hcur. unfold getVideoTracks in H1, H2. simpl in H1, H2.
  unfold exec.
  rewrite (startStream_resume_granted id1 tracks1 track1 w1 H1).
  rewrite (startStream_resume_granted id2 tracks2 track2 w2 H2).
  simpl. rewrite Hprior, Hcaps, Hcur. split; reflexivity.
Qed.

Lemma reconcile_deterministic_witness :
  settings (state (exec (startStream_resume "a"
     (JS.Fulfilled [camera zoom_1_to_5 (reports_zoom (JS.lit 3))])) initial_world))
  = settings (state (exec (startStream_resume "b"
     (JS.Fulfilled [stop (camera zoom_1_to_5 (reports_zoom (JS.lit 3)))]))
     (exec (open "b") initial_world))).
Proof.
  apply (reconcile_deterministic initial_world (exec (open "b") initial_world) "a" "b"
           [camera zoom_1_to_5 (reports_zoom (JS.lit 3))]
           [stop (camera zoom_1_to_5 (reports_zoom (JS.lit 3)))]
           (camera zoom_1_to_5 (reports_zoom (JS.lit 3)))
           (stop (camera zoom_1_to_5 (reports_zoom (JS.lit 3)))));
    reflexivity.
Defined.

(** ** C4: a rejected constraint is absorbed *)

(** C4: when a field update is applied against the stream held and the
    hardware rejects it, [updateSetting] returns normally, the settings
    model holds the requested value, the same stream stays held with no
    error raised in the session, no track changes state, no request is put
    in flight, and the only calls made are the constraint application and
    the warning. *)
Theorem updateSetting_rejected key value e h track w :
  streamRef (state w) = Some h ->
  first_video_track h w = Some track ->
  let constraint := {| c_key := key; c_value := value |} in
  let w' := exec (updateSetting key value (JS.Rejected e)) w in
  outcome (updateSetting key value (JS.Rejected e)) w = JS.Fulfilled tt
  /\ get key (settings (state w')) = value
  /\ streamRef (state w') = Some h
  /\ error (state w') = error (state w)
  /\ store w' = store w
  /\ pending w' = pending w
  /\ log w' = log w ++ [ApplyConstraints h [constraint]; ConsoleWarn (Some constraint) e].
Proof.
  intros Hheld Htrack constraint w'. subst w' constraint.
  unfold outcome, exec, updateSetting, applyConstraint, bind, effect, read, try_catch.
  simpl. rewrite Hheld.
  change (first_video_track h (with_state ?f w)) with (first_video_track h w).
  rewrite Htrack. simpl.
  rewrite get_set_same, <- app_assoc. repeat split; solve [reflexivity | exact Hheld].
Qed.

Lemma updateSetting_rejected_witness :
  let w := exec (startStream_resume "a" (JS.Fulfilled [camera zoom_1_to_5 reports_nothing]))
                initial_world in
  let w' := exec (updateSetting Kzoom (JS.lit 10) (JS.Rejected "OverconstrainedError")) w in
  outcome (updateSetting Kzoom (JS.lit 10) (JS.Rejected "OverconstrainedError")) w
  = JS.Fulfilled tt
  /\ zoom (settings (state w')) = JS.lit 10
  /\ live_handles w' = [0].
Proof.
  intros w w'.
  destruct (updateSetting_rejected Kzoom (JS.lit 10) "OverconstrainedError" 0
              (camera zoom_1_to_5 reports_nothing) w eq_refl eq_refl)
    as (Hout & Hval & _).
  split; [exact Hout | split; [exact Hval | reflexivity]].
Defined.

(** ** C5 and C10: device enumeration *)

Lemma getCameras_refused e inventory w :
  getCameras (JS.Rejected e) inventory w
  = (JS.Fulfilled tt,
     with_state (set_error (Some permission_message)) (call (GetUserMedia video_true) w)).
Proof. reflexivity. Qed.

Lemma getCameras_devices tracks inventory w :
  devices (state (exec (getCameras (JS.Fulfilled tracks) (JS.Fulfilled inventory)) w))
  = map to_camera (List.filter is_videoinput inventory).
Proof.
  unfold exec, getCameras, bind, read, try_catch, effect, deliver, await. simpl.
  destruct (map to_camera (List.filter is_videoinput inventory)) as [|first rest] eqn:Hdevs;
    [reflexivity |].
  destruct (JS.truthy_string (selectedDeviceId (state w))); reflexivity.
Qed.

(** The stream obtained by the permission request keeps running. *)
Example permission_stream_stays_live : live_handles enumerated_once = [0].
Proof. reflexivity. Qed.

(** C5, as stated, fails: a refused permission request leaves the entry
    found by the earlier enumeration in the device sequence. *)
Lemma refused_refresh_retains_devices :
  devices (state (exec (getCameras (JS.Rejected "NotAllowedError") (JS.Fulfilled []))
                       enumerated_once))
  = [ {| deviceId := "a"; label := "Cam A" |} ].
Proof. reflexivity. Qed.

(** C5 (amended): when the permission request is refused, enumeration
    returns normally with the permission error set, the host inventory is
    not asked for, and the device sequence is left as it was; it is empty
    when it was empty before, as at the start of a session. *)
Theorem getCameras_permission_refused e inventory w :
  let w' := exec (getCameras (JS.Rejected e) inventory) w in
  outcome (getCameras (JS.Rejected e) inventory) w = JS.Fulfilled tt
  /\ error (state w') = Some permission_message
  /\ devices (state w') = devices (state w)
  /\ log w' = log w ++ [GetUserMedia video_true]
  /\ devices (state (exec (getCameras (JS.Rejected e) inventory) initial_world)) = [].
Proof. repeat split. Qed.

(** C10: every device of the sequence produced by a successful
    enumeration comes from a host entry of kind [videoinput], carries that
    entry's id, and has a non-empty label: the host's label when it is not
    empty, and otherwise ["Camera "], the first five characters of the
    id, and ["..."]. *)
Theorem enumerated_devices_labelled tracks inventory w d :
  In d (devices (state (exec (getCameras (JS.Fulfilled tracks) (JS.Fulfilled inventory)) w))) ->
  exists info,
    In info inventory
    /\ info_kind info = videoinput
    /\ deviceId d = info_deviceId info
    /\ label d <> EmptyString
    /\ (info_label info <> EmptyString -> label d = info_label info)
    /\ (info_label info = EmptyString ->
        label d = ("Camera " ++ JS.slice0 5 (info_deviceId info) ++ "...")%string).
Proof.
  rewrite getCameras_devices. intros Hd.
  apply in_map_iff in Hd as (info & <- & Hin).
  apply filter_In in Hin as [Hin Hkind].
  exists info. split; [exact Hin |]. split.
  { unfold is_videoinput in Hkind. destruct (info_kind info); congruence. }
  split; [reflexivity |].
  unfold to_camera; simpl.
  destruct (info_label info) as [|c rest]; simpl.
  - repeat split; congruence.
  - repeat split; congruence.
Qed.

Lemma enumerated_devices_labelled_witness :
  exists info,
    In info [ {| info_deviceId := "0123456789"; info_kind := videoinput;
                 info_label := EmptyString |} ]
    /\ info_kind info = videoinput
    /\ "0123456789" = info_deviceId info
    /\ "Camera 01234..." <> EmptyString
    /\ (info_label info <> EmptyString -> "Camera 01234..." = info_label info)
    /\ (info_label info = EmptyString ->
        "Camera 01234..." = ("Camera " ++ JS.slice0 5 (info_deviceId info) ++ "...")%string).
Proof.
  apply (enumerated_devices_labelled
           [camera no_capabilities reports_nothing]
           [ {| info_deviceId := "0123456789"; info_kind := videoinput;
                info_label := EmptyString |} ]
           initial_world
           {| deviceId := "0123456789"; label := "Camera 01234..." |}).
  simpl. left. reflexivity.
Defined.

(** ** C6: script generation without a credential *)

Section ScriptRequest.

Import Service.

Variable show : JS.number -> string.

Lemma generateSystemScript_rethrows apiKey params e :
  JS.truthy_string apiKey = true ->
  snd (generateSystemScript show (Some apiKey) params (JS.Rejected e)) = JS.Rejected e.
Proof. intros Hkey. unfold generateSystemScript. rewrite Hkey. reflexivity. Qed.

(** C6: with no credential configured (the variable undefined or
    empty), script generation throws before anything is sent to the
    service; the error carries the missing-credential message, which
    reaches the panel unchanged and is recognised there by the test that
    selects the configuration guidance. With a credential, a failure of
    the service call is thrown to the caller as it was raised. *)
Theorem generateSystemScript_missing_credential API_KEY params answer settings label p :
  API_KEY = None \/ API_KEY = Some EmptyString ->
  generateSystemScript show API_KEY params answer = ([], JS.Rejected missing_key_message)
  /\ handleGenerate show API_KEY settings label answer p
     = ([], {| selectedOS := selectedOS p; panel_scriptType := panel_scriptType p;
               generatedScript := generatedScript p; isLoading := false;
               panel_error := Some missing_key_message |})
  /\ shows_credential_help missing_key_message = true
  /\ forall apiKey e,
       JS.truthy_string apiKey = true ->
       snd (generateSystemScript show (Some apiKey) params (JS.Rejected e)) = JS.Rejected e.
Proof.
  intros [-> | ->]; (split; [reflexivity |]); (split; [reflexivity |]);
    (split; [reflexivity |]); intros apiKey e Hkey;
    apply generateSystemScript_rethrows; exact Hkey.
Qed.

End ScriptRequest.

Lemma generateSystemScript_missing_credential_witness :
  Service.generateSystemScript (fun _ => "1") None
    {| Service.os := Service.LINUX; Service.cameraName := "Cam A";
       Service.p_settings := initial_settings; Service.scriptType := Service.python |}
    (JS.Fulfilled "#!/bin/sh")
  = ([], JS.Rejected Service.missing_key_message)
  /\ snd (Service.generateSystemScript (fun _ => "1") (Some "k")
            {| Service.os := Service.LINUX; Service.cameraName := "Cam A";
               Service.p_settings := initial_settings; Service.scriptType := Service.python |}
            (JS.Rejected "503"))
     = JS.Rejected "503".
Proof.
  destruct (generateSystemScript_missing_credential (fun _ => "1") None
              {| Service.os := Service.LINUX; Service.cameraName := "Cam A";
                 Service.p_settings := initial_settings; Service.scriptType := Service.python |}
              (JS.Fulfilled "#!/bin/sh") initial_settings "Cam A"
              {| Service.selectedOS := Service.LINUX; Service.panel_scriptType := Service.python;
                 Service.generatedScript := EmptyString; Service.isLoading := false;
                 Service.panel_error := None |}
              (or_introl eq_refl))
    as (Hthrow & _ & _ & Hrethrow).
  split; [exact Hthrow | apply Hrethrow; reflexivity].
Defined.

(** ** Sessions: closed forms of the steps *)

Lemma stop_previous_release w : stop_previous w = (JS.Fulfilled tt, release w).
Proof.
  unfold stop_previous, release, bind, read, effect, ret.
  destruct (streamRef (state w)); reflexivity.
Qed.

Lemma stopTracks_state h w : state (stopTracks h w) = state w.
Proof. unfold stopTracks. destruct (store w !! h); reflexivity. Qed.

Lemma stopTracks_pending h w : pending (stopTracks h w) = pending w.
Proof. unfold stopTracks. destruct (store w !! h); reflexivity. Qed.

Lemma release_state w : state (release w) = state w.
Proof. unfold release. destruct (streamRef (state w)); [apply stopTracks_state | reflexivity]. Qed.

Lemma release_pending w : pending (release w) = pending w.
Proof. unfold release. destruct (streamRef (state w)); [apply stopTracks_pending | reflexivity]. Qed.

Lemma startStream_closed w :
  JS.truthy_string (selectedDeviceId (state w)) = true ->
  exec startStream w
  = with_pending (fun p => p ++ [selectedDeviceId (state w)])
      (call (GetUserMedia (open_constraints (selectedDeviceId (state w)))) (release w)).
Proof.
  intros Hid. unfold exec, startStream, bind, read. simpl. rewrite Hid. simpl.
  rewrite stop_previous_release. reflexivity.
Qed.

Lemma open_closed id w :
  exec (open id) w
  = if JS.truthy_string id
    then with_pending (fun p => p ++ [id])
           (call (GetUserMedia (open_constraints id))
              (release (release (with_state (set_selectedDeviceId id) w))))
    else release (with_state (set_selectedDeviceId id) w).
Proof.
  unfold exec, open, bind, effect. simpl. rewrite stop_previous_release.
  destruct (JS.truthy_string id) eqn:Hid; [| reflexivity].
  change (snd (startStream ?x)) with (exec startStream x).
  rewrite startStream_closed; rewrite release_state; simpl; [reflexivity | exact Hid].
Qed.

Lemma settle_closed i answer w :
  exec (settle i answer) w
  = match pending w !! i with
    | Some id => exec (startStream_resume id answer) (with_pending (delete i) w)
    | None => w
    end.
Proof.
  unfold exec, settle, bind, read, effect. simpl.
  destruct (pending w !! i); reflexivity.
Qed.



Lemma startStream_resume_store id tracks w :
  store (exec (startStream_resume id (JS.Fulfilled tracks)) w)
  = store w ++ [{| source := Some id; getTracks := tracks |}]
  /\ streamRef (state (exec (startStream_resume id (JS.Fulfilled tracks)) w))
     = Some (length (store w)).
Proof.
  unfold exec, startStream_resume, try_catch, bind, deliver, effect, read.
  erewrite first_video_track_delivered by reflexivity.
  destruct (head (List.filter is_video tracks)); split; reflexivity.
Qed.

Lemma startStream_resume_refused id e w :
  store (exec (startStream_resume id (JS.Rejected e)) w) = store w
  /\ pending (exec (startStream_resume id (JS.Rejected e)) w) = pending w
  /\ streamRef (state (exec (startStream_resume id (JS.Rejected e)) w)) = streamRef (state w).
Proof. repeat split. Qed.

(** ** C1: rapid device switches *)









(** ** C7: release before request *)

Lemma stop_all_not_live s : stream_live (stop_all s) = false.
Proof.
  unfold stream_live, stop_all; simpl.
  induction (getTracks s) as [|t ts IH]; [reflexivity | exact IH].
Qed.

(** [startStream] on a held stream: the stops, one per track, come before
    the request; the stream held has no running track left. *)
Lemma startStream_releases_first w h s :
  streamRef (state w) = Some h ->
  store w !! h = Some s ->
  JS.truthy_string (selectedDeviceId (state w)) = true ->
  log (exec startStream w)
  = log w ++ map (TrackStop h) (seq 0 (length (getTracks s)))
          ++ [GetUserMedia (open_constraints (selectedDeviceId (state w)))]
  /\ store (exec startStream w) !! h = Some (stop_all s)
  /\ stream_live (stop_all s) = false
  /\ pending (exec startStream w) = pending w ++ [selectedDeviceId (state w)].
Proof.
  intros Hheld Hs Hid. rewrite startStream_closed by exact Hid.
  unfold release, stopTracks. rewrite Hheld, Hs. simpl.
  rewrite <- app_assoc. split; [reflexivity |]. split.
  - apply list_lookup_insert_eq. apply lookup_lt_Some with s. exact Hs.
  - split; [apply stop_all_not_live | reflexivity].
Qed.

Lemma release_all_ended w :
  (forall h s, store w !! h = Some s -> stream_live s = true -> streamRef (state w) = Some h) ->
  all_ended (release w).
Proof.
  intros Hheld h s Hs. unfold release in Hs.
  destruct (stream_live s) eqn:Hlive; [| reflexivity]. exfalso.
  destruct (streamRef (state w)) as [h0|] eqn:Href.
  - unfold stopTracks in Hs. destruct (store w !! h0) as [s0|] eqn:Hs0.
    + simpl in Hs. destruct (decide (h0 = h)) as [-> | Hne].
      * rewrite list_lookup_insert_eq in Hs by (apply lookup_lt_Some with s0; exact Hs0).
        injection Hs as <-. rewrite stop_all_not_live in Hlive. discriminate.
      * rewrite list_lookup_insert_ne in Hs by exact Hne.
        specialize (Hheld h s Hs Hlive). congruence.
    + specialize (Hheld h s Hs Hlive). congruence.
  - specialize (Hheld h s Hs Hlive). congruence.
Qed.

Lemma all_ended_release w : all_ended w -> all_ended (release w).
Proof.
  intros Hended. apply release_all_ended. intros h s Hs Hlive.
  rewrite (Hended h s Hs) in Hlive. discriminate.
Qed.

Lemma open_one_at_a_time id w :
  one_at_a_time w -> pending w = [] -> one_at_a_time (exec (open id) w).
Proof.
  intros [_ Hlive] Hidle.
  assert (Hended : all_ended (release (with_state (set_selectedDeviceId id) w))).
  { apply release_all_ended. intros h s Hs Hl. apply (Hlive h s Hs Hl). }
  rewrite open_closed. destruct (JS.truthy_string id).
  - apply all_ended_release in Hended. split.
    + simpl. rewrite !release_pending. simpl. rewrite Hidle. simpl. lia.
    + intros h s Hs Hl. simpl in Hs. rewrite (Hended h s Hs) in Hl. discriminate.
  - split.
    + rewrite release_pending. simpl. rewrite Hidle. simpl. lia.
    + intros h s Hs Hl. rewrite (Hended h s Hs) in Hl. discriminate.
Qed.

Lemma settle_one_at_a_time i answer w :
  one_at_a_time w -> one_at_a_time (exec (settle i answer) w).
Proof.
  intros [Hone Hlive]. rewrite settle_closed.
  destruct (pending w !! i) as [id|] eqn:Hi; [| split; assumption].
  assert (Hp : pending w = [id] /\ i = 0).
  { destruct (pending w) as [|d [|d' p]]; simpl in *; try lia; [discriminate |].
    destruct i; simpl in Hi; [injection Hi as ->; split; reflexivity | discriminate]. }
  destruct Hp as [Hp ->].
  assert (Hended : all_ended w).
  { intros h s Hs. destruct (stream_live s) eqn:Hl; [| reflexivity].
    destruct (Hlive h s Hs Hl) as [_ Hnil]. congruence. }
  destruct answer as [tracks | e].
  - destruct (startStream_resume_store id tracks (with_pending (delete 0) w)) as [Hstore Href].
    destruct (startStream_resume_holds id tracks (with_pending (delete 0) w)) as [_ Hpend].
    simpl in Hstore, Href, Hpend. rewrite Hp in Hpend. simpl in Hpend.
    split; [rewrite Hpend; simpl; lia |].
    intros h s Hs Hl. rewrite Hstore in Hs. split; [| exact Hpend].
    rewrite Href. f_equal.
    destruct (decide (h < length (store w))) as [Hlt | Hge].
    + rewrite lookup_app_l in Hs by exact Hlt.
      rewrite (Hended h s Hs) in Hl. discriminate.
    + apply lookup_lt_Some in Hs. rewrite length_app in Hs. simpl in Hs. lia.
  - destruct (startStream_resume_refused id e (with_pending (delete 0) w))
      as (Hstore & Hpend & _).
    split.
    + rewrite Hpend. simpl. rewrite Hp. simpl. lia.
    + intros h s Hs Hl. rewrite Hstore in Hs. simpl in Hs.
      rewrite (Hended h s Hs) in Hl. discriminate.
Qed.

Lemma Serial_one_at_a_time w : Serial w -> one_at_a_time w.
Proof.
  induction 1 as [| id w _ IH Hidle | i answer w _ IH].
  - split; [simpl; lia | intros h s Hs; discriminate Hs].
  - apply open_one_at_a_time; assumption.
  - apply settle_one_at_a_time; assumption.
Qed.

Lemma one_at_a_time_live w : one_at_a_time w -> length (live_handles w) <= 1.
Proof.
  intros [_ Hlive].
  assert (Hheld : forall h, In h (live_handles w) -> streamRef (state w) = Some h).
  { intros h Hh. unfold live_handles in Hh. apply filter_In in Hh as [_ Hh].
    destruct (store w !! h) as [s|] eqn:Hs; [| discriminate].
    apply (Hlive h s Hs Hh). }
  assert (Hnodup : List.NoDup (live_handles w)).
  { apply List.NoDup_filter, List.seq_NoDup. }
  destruct (live_handles w) as [|a [|b l]]; simpl; try lia.
  exfalso.
  assert (Hab : a = b).
  { pose proof (Hheld a (or_introl eq_refl)) as Ha.
    pose proof (Hheld b (or_intror (or_introl eq_refl))) as Hb. congruence. }
  inversion Hnodup as [|? ? Hnotin _]. apply Hnotin. left. symmetry. exact Hab.
Qed.

(** C7, as stated, fails: while the stream of "a" is held, "b" then "c"
    are selected before any result arrives. Each open stops the track of
    the stream held before it makes its request, and yet, once both
    results are in, the streams of "b" and of "c" both have a running
    track. *)
Lemma overlapping_opens_leave_two_live_streams :
  let w := run [ Open "a"; Settle 0 (JS.Fulfilled [camera no_capabilities reports_nothing]);
                 Open "b"; Open "c";
                 Settle 0 (JS.Fulfilled [camera no_capabilities reports_nothing]);
                 Settle 0 (JS.Fulfilled [camera no_capabilities reports_nothing]) ]
               initial_world in
  live_handles w = [1; 2]
  /\ streamRef (state w) = Some 2
  /\ log w = [ GetUserMedia (open_constraints "a");
               TrackStop 0 0; TrackStop 0 0; GetUserMedia (open_constraints "b");
               TrackStop 0 0; TrackStop 0 0; GetUserMedia (open_constraints "c") ].
Proof. repeat split. Qed.

(** * Further properties of the component *)

(** ** Closed forms *)

Lemma updateSetting_closed key value answer w :
  updateSetting key value answer w
  = (JS.Fulfilled tt,
     {| state := update_settings (set key value) (state w);
        store := store w;
        pending := pending w;
        log := log w ++ applied_calls {| c_key := key; c_value := value |} answer w |}).
Proof.
  unfold updateSetting, applyConstraint, applied_calls, bind, effect, read, try_catch,
    the_track, await, ret, throw, call, with_state.
  simpl.
  destruct (streamRef (state w)) as [h|]; simpl.
  - change (first_video_track h {| state := ?a; store := store w; pending := ?p; log := ?l |})
      with (first_video_track h w).
    destruct (first_video_track h w); simpl.
    + destruct answer as [[] | e]; simpl; rewrite <- ?app_assoc; reflexivity.
    + reflexivity.
  - rewrite app_nil_r. reflexivity.
Qed.

Lemma toggleFocusMode_closed rendered answer w :
  toggleFocusMode rendered answer w
  = updateSetting KfocusMode (toggled (focusMode rendered)) answer w.
Proof. reflexivity. Qed.

Lemma startStream_resume_closed id tracks w :
  startStream_resume id (JS.Fulfilled tracks) w
  = (JS.Fulfilled tt,
     match head (List.filter is_video tracks) with
     | Some track => opened id tracks track w
     | None => held_without_video id tracks w
     end).
Proof.
  destruct (head (List.filter is_video tracks)) as [track|] eqn:Hfirst.
  - apply startStream_resume_granted. exact Hfirst.
  - unfold startStream_resume, try_catch, bind, deliver, effect, read.
    erewrite first_video_track_delivered by reflexivity.
    rewrite Hfirst. reflexivity.
Qed.

Lemma getCameras_closed tracks inventory w :
  getCameras (JS.Fulfilled tracks) (JS.Fulfilled inventory) w
  = (JS.Fulfilled tt,
     {| state := enumerated inventory (state w);
        store := store w ++ [{| source := None; getTracks := tracks |}];
        pending := pending w;
        log := log w ++ [GetUserMedia video_true; EnumerateDevices] |}).
Proof.
  unfold getCameras, enumerated, bind, read, try_catch, effect, deliver, await, ret,
    call, with_state, with_store. simpl.
  destruct (map to_camera (List.filter is_videoinput inventory)) as [|first rest];
    [| destruct (JS.truthy_string (selectedDeviceId (state w)))];
    simpl; rewrite <- app_assoc; reflexivity.
Qed.

Lemma getCameras_inventory_refused tracks e w :
  getCameras (JS.Fulfilled tracks) (JS.Rejected e) w
  = (JS.Fulfilled tt,
     {| state := set_error (Some permission_message) (state w);
        store := store w ++ [{| source := None; getTracks := tracks |}];
        pending := pending w;
        log := log w ++ [GetUserMedia video_true; EnumerateDevices] |}).
Proof.
  unfold getCameras, bind, read, try_catch, effect, deliver, await, throw,
    call, with_state, with_store. simpl.
  rewrite <- app_assoc. reflexivity.
Qed.

(** ** Single-field updates *)

Lemma set_set_same k v v' s : set k v (set k v' s) = set k v s.
Proof. destruct k; reflexivity. Qed.

Lemma set_get k s : set k (get k s) s = s.
Proof. destruct k, s; reflexivity. Qed.

Lemma set_commute k1 v1 k2 v2 s :
  k1 <> k2 -> set k1 v1 (set k2 v2 s) = set k2 v2 (set k1 v1 s).
Proof. intros Hne. destruct k1, k2; try reflexivity; congruence. Qed.

Lemma updateSetting_world key value answer w :
  exec (updateSetting key value answer) w
  = {| state := update_settings (set key value) (state w);
       store := store w;
       pending := pending w;
       log := log w ++ applied_calls {| c_key := key; c_value := value |} answer w |}.
Proof. unfold exec. rewrite updateSetting_closed. reflexivity. Qed.

Lemma updateSetting_state key value answer w :
  state (exec (updateSetting key value answer) w)
  = update_settings (set key value) (state w).
Proof. unfold exec. rewrite updateSetting_closed. reflexivity. Qed.

(** X1: whatever the hardware answers and whether or not a stream is
    held, [updateSetting] returns normally, changes nothing of the session
    but the settings model, stops no track and requests no stream; it
    applies constraints at most once, to the stream held, with the single
    property updated, and makes no call at all when no stream is held. *)
Theorem updateSetting_is_incremental key value answer w :
  let c := {| c_key := key; c_value := value |} in
  let w' := exec (updateSetting key value answer) w in
  outcome (updateSetting key value answer) w = JS.Fulfilled tt
  /\ state w' = update_settings (set key value) (state w)
  /\ store w' = store w
  /\ pending w' = pending w
  /\ exists calls,
       log w' = log w ++ calls
       /\ forallb (fun x => negb (releases_or_requests x)) calls = true
       /\ length (List.filter is_apply calls) <= 1
       /\ (forall h cs, In (ApplyConstraints h cs) calls ->
             streamRef (state w) = Some h /\ cs = [c])
       /\ (streamRef (state w) = None -> calls = []).
Proof.
  intros c w'. subst w'. unfold outcome, exec. rewrite updateSetting_closed. simpl.
  repeat (split; [reflexivity |]).
  exists (applied_calls c answer w). split; [reflexivity |].
  unfold applied_calls.
  destruct (streamRef (state w)) as [h|].
  2:{ split; [reflexivity |]. split; [simpl; lia |].
      split; [intros h cs Hin; destruct Hin | reflexivity]. }
  destruct (first_video_track h w); [destruct answer |]; simpl;
    (split; [reflexivity |]); (split; [lia |]); (split; [| discriminate]);
    intros h' cs Hin; repeat destruct Hin as [Hin | Hin]; try discriminate Hin;
    try contradiction; injection Hin as <- <-; split; reflexivity.
Qed.

(** X2: two successive updates of different fields both persist, leave
    every other field alone, and give the same settings model in either
    order, whatever the hardware answers to each. *)
Theorem updates_of_distinct_fields_compose k1 v1 a1 k2 v2 a2 a1' a2' w :
  k1 <> k2 ->
  let w' := exec (updateSetting k2 v2 a2) (exec (updateSetting k1 v1 a1) w) in
  get k1 (settings (state w')) = v1
  /\ get k2 (settings (state w')) = v2
  /\ (forall k, k <> k1 -> k <> k2 -> get k (settings (state w')) = get k (settings (state w)))
  /\ settings (state w')
     = settings (state (exec (updateSetting k1 v1 a1') (exec (updateSetting k2 v2 a2') w))).
Proof.
  intros Hne w'. subst w'. rewrite !updateSetting_state. simpl.
  split; [| split; [| split]].
  - rewrite get_set_other by exact Hne. apply get_set_same.
  - apply get_set_same.
  - intros k Hk1 Hk2. rewrite !get_set_other by assumption. reflexivity.
  - apply set_commute. congruence.
Qed.

Lemma updates_of_distinct_fields_compose_witness :
  let w' := exec (updateSetting Kbrightness (JS.lit 128) (JS.Rejected "rejected"))
                 (exec (updateSetting Kzoom (JS.lit 3) (JS.Fulfilled tt)) holding_a) in
  zoom (settings (state w')) = JS.lit 3 /\ brightness (settings (state w')) = JS.lit 128.
Proof.
  destruct (updates_of_distinct_fields_compose
              Kzoom (JS.lit 3) (JS.Fulfilled tt) Kbrightness (JS.lit 128)
              (JS.Rejected "rejected") (JS.Fulfilled tt) (JS.Fulfilled tt) holding_a)
    as (Hzoom & Hbrightness & _); [discriminate |].
  split; [exact Hzoom | exact Hbrightness].
Defined.

(** ** Focus mode *)

(** A mode other than the two declared ones is not restored by toggling
    twice. *)
Example toggle_twice_from_single_shot :
  toggled (toggled (focusMode single_shot)) = "manual".
Proof. reflexivity. Qed.

(** X3: a toggle acts on the focus mode of the render its handler
    belongs to. When that render is current and the mode is one of the two
    declared ones, the toggle changes the mode, sends the new mode to the
    stream held as the only property of the constraint, and a second
    toggle from the next render restores the whole settings model; a
    second toggle from the same render sets the same mode again and
    restores nothing. *)
Theorem toggleFocusMode_twice a1 a2 w :
  focusMode (settings (state w)) = "continuous" \/ focusMode (settings (state w)) = "manual" ->
  let w1 := exec (toggleFocusMode (settings (state w)) a1) w in
  focusMode (settings (state w1)) <> focusMode (settings (state w))
  /\ (focusMode (settings (state w1)) = "continuous"
      \/ focusMode (settings (state w1)) = "manual")
  /\ log w1
     = log w ++ applied_calls
                  {| c_key := KfocusMode; c_value := focusMode (settings (state w1)) |} a1 w
  /\ settings (state (exec (toggleFocusMode (settings (state w1)) a2) w1))
     = settings (state w)
  /\ settings (state (exec (toggleFocusMode (settings (state w)) a2) w1))
     = settings (state w1).
Proof.
  intros Hmode w1. subst w1. unfold exec.
  rewrite !toggleFocusMode_closed, !updateSetting_closed. simpl.
  destruct (settings (state w)) as [mode fd z b c]. simpl in *.
  destruct Hmode as [-> | ->]; simpl; repeat split; try discriminate; auto.
Qed.

Lemma toggleFocusMode_twice_witness :
  let w1 := exec (toggleFocusMode (settings (state holding_a)) (JS.Fulfilled tt)) holding_a in
  settings (state (exec (toggleFocusMode (settings (state w1)) (JS.Fulfilled tt)) w1))
  = settings (state holding_a)
  /\ focusMode (settings (state (exec (toggleFocusMode (settings (state holding_a))
                                         (JS.Fulfilled tt)) w1)))
     = "manual".
Proof.
  destruct (toggleFocusMode_twice (JS.Fulfilled tt) (JS.Fulfilled tt) holding_a)
    as (_ & _ & _ & Hback & _); [left; reflexivity |].
  split; [exact Hback | reflexivity].
Defined.

(** ** Stream life cycle *)

Lemma stop_all_idempotent s : stop_all (stop_all s) = stop_all s.
Proof.
  unfold stop_all; simpl. f_equal. rewrite map_map. reflexivity.
Qed.

Lemma getVideoTracks_stop_all s :
  getVideoTracks (stop_all s) = map stop (getVideoTracks s).
Proof.
  unfold getVideoTracks, stop_all; simpl.
  induction (getTracks s) as [|t ts IH]; [reflexivity |]. simpl.
  change (is_video (stop t)) with (is_video t).
  destruct (is_video t); simpl; rewrite IH; reflexivity.
Qed.

Lemma release_held w h s :
  streamRef (state w) = Some h -> store w !! h = Some s ->
  release w
  = {| state := state w;
       store := <[h := stop_all s]> (store w);
       pending := pending w;
       log := log w ++ map (TrackStop h) (seq 0 (length (getTracks s))) |}.
Proof. intros Hheld Hs. unfold release, stopTracks. rewrite Hheld, Hs. reflexivity. Qed.

(** X4: releasing twice leaves the session as releasing once does: the
    same React state, the same streams with the same tracks stopped, the
    same requests in flight; only the stop calls are made again. *)
Theorem stop_previous_idempotent w :
  let once := exec stop_previous w in
  let twice := exec stop_previous once in
  outcome stop_previous once = JS.Fulfilled tt
  /\ state twice = state once
  /\ store twice = store once
  /\ pending twice = pending once
  /\ exists stops, log twice = log once ++ stops
                   /\ forall c, In c stops -> exists h i, c = TrackStop h i.
Proof.
  intros once twice. subst once twice. unfold outcome, exec.
  rewrite !stop_previous_release. simpl.
  split; [reflexivity |].
  destruct (streamRef (state w)) as [h|] eqn:Hheld.
  2:{ unfold release. rewrite Hheld. simpl. rewrite Hheld.
      repeat (split; [reflexivity |]). exists []. split; [symmetry; apply app_nil_r |].
      intros c []. }
  destruct (store w !! h) as [s|] eqn:Hs.
  2:{ unfold release, stopTracks. rewrite Hheld, Hs. simpl. rewrite Hheld, Hs.
      repeat (split; [reflexivity |]). exists []. split; [symmetry; apply app_nil_r |].
      intros c []. }
  rewrite (release_held w h s Hheld Hs).
  assert (Hs' : <[h := stop_all s]> (store w) !! h = Some (stop_all s)).
  { apply list_lookup_insert_eq. apply lookup_lt_Some with s. exact Hs. }
  erewrite release_held; [| exact Hheld | exact Hs']. simpl.
  rewrite stop_all_idempotent, list_insert_insert_eq.
  repeat (split; [reflexivity |]).
  eexists. split; [reflexivity |].
  intros c Hc. apply in_map_iff in Hc as (i & <- & _). exists h, i. reflexivity.
Qed.

(** X5: clearing the selection while a stream is held stops every track
    of that stream and requests nothing; the reference to the stopped
    stream is kept. *)
Theorem clearing_selection_releases w h s :
  streamRef (state w) = Some h ->
  store w !! h = Some s ->
  let w' := exec (open EmptyString) w in
  log w' = log w ++ map (TrackStop h) (seq 0 (length (getTracks s)))
  /\ pending w' = pending w
  /\ store w' !! h = Some (stop_all s)
  /\ stream_live (stop_all s) = false
  /\ streamRef (state w') = Some h
  /\ selectedDeviceId (state w') = EmptyString.
Proof.
  intros Hheld Hs w'. subst w'. rewrite open_closed. simpl.
  rewrite (release_held _ h s); [simpl | exact Hheld | exact Hs].
  repeat split; try reflexivity.
  - apply list_lookup_insert_eq. apply lookup_lt_Some with s. exact Hs.
  - apply stop_all_not_live.
  - exact Hheld.
Qed.

Lemma clearing_selection_releases_witness :
  log (exec (open EmptyString) holding_a) = log holding_a ++ [TrackStop 0 0]
  /\ live_handles (exec (open EmptyString) holding_a) = [].
Proof.
  destruct (clearing_selection_releases holding_a 0
              {| source := Some "a"; getTracks := [camera no_capabilities reports_nothing] |}
              eq_refl eq_refl) as (Hlog & _).
  split; [exact Hlog | reflexivity].
Defined.

(** X6: when the request of an open is refused, the error of the stream
    is shown and logged, and everything else is as before: the reference
    to the previous stream, the capabilities and the settings read from
    it, the device list and the selection. *)
Theorem refused_open_keeps_previous i id e w :
  pending w !! i = Some id ->
  let w' := exec (settle i (JS.Rejected e)) w in
  outcome (settle i (JS.Rejected e)) w = JS.Fulfilled tt
  /\ state w' = set_error (Some stream_message) (state w)
  /\ store w' = store w
  /\ pending w' = delete i (pending w)
  /\ log w' = log w ++ [ConsoleError e].
Proof.
  intros Hi w'. subst w'. unfold outcome, exec, settle, bind, read, effect. simpl.
  rewrite Hi. repeat split.
Qed.

Lemma refused_open_keeps_previous_witness :
  let w' := exec (settle 0 (JS.Rejected "NotReadableError")) (exec (open "b") holding_a) in
  error (state w') = Some stream_message
  /\ streamRef (state w') = Some 0
  /\ selectedDeviceId (state w') = "b"
  /\ active_device w' = Some "a"
  /\ live_handles w' = [].
Proof.
  destruct (refused_open_keeps_previous 0 "b" "NotReadableError" (exec (open "b") holding_a)
              eq_refl) as (_ & Hstate & _).
  cbv zeta in *. split; [exact (f_equal error Hstate) | repeat split].
Defined.

(** X7: after a switch to another device whose request is refused, the
    stream held is still the previous one, with every track stopped, and
    a later field update applies its constraint to that stopped stream. *)
Theorem update_after_refused_switch_targets_stopped_stream w h s track id e key value answer :
  streamRef (state w) = Some h ->
  store w !! h = Some s ->
  head (getVideoTracks s) = Some track ->
  pending w = [] ->
  JS.truthy_string id = true ->
  let w' := exec (updateSetting key value answer)
              (exec (settle 0 (JS.Rejected e)) (exec (open id) w)) in
  In (ApplyConstraints h [ {| c_key := key; c_value := value |} ]) (log w')
  /\ store w' !! h = Some (stop_all s)
  /\ stream_live (stop_all s) = false
  /\ error (state w') = Some stream_message.
Proof.
  intros Hheld Hs Htrack Hidle Hid w'. subst w'.
  assert (Hlt : h < length (store w)) by (apply lookup_lt_Some with s; exact Hs).
  assert (Hopen : exists l,
            exec (open id) w
            = {| state := set_selectedDeviceId id (state w);
                 store := <[h := stop_all s]> (store w);
                 pending := [id];
                 log := l |}).
  { rewrite open_closed, Hid.
    rewrite (release_held (with_state (set_selectedDeviceId id) w) h s Hheld Hs). simpl.
    erewrite release_held;
      [| exact Hheld | simpl; apply list_lookup_insert_eq; exact Hlt].
    simpl. rewrite stop_all_idempotent, list_insert_insert_eq, Hidle. simpl.
    eexists. reflexivity. }
  destruct Hopen as [l Hopen]. rewrite Hopen.
  set (w1 := exec (settle 0 (JS.Rejected e)) _).
  assert (Hheld1 : streamRef (state w1) = Some h) by exact Hheld.
  assert (Hstore1 : store w1 = <[h := stop_all s]> (store w)) by reflexivity.
  assert (Herror1 : error (state w1) = Some stream_message) by reflexivity.
  assert (Hfirst : first_video_track h w1 = Some (stop track)).
  { unfold first_video_track. rewrite Hstore1.
    rewrite list_lookup_insert_eq by exact Hlt. simpl.
    rewrite getVideoTracks_stop_all.
    destruct (getVideoTracks s); [discriminate Htrack |].
    injection Htrack as ->. reflexivity. }
  clearbody w1. rewrite updateSetting_world. simpl.
  unfold applied_calls. rewrite Hheld1, Hfirst, Hstore1.
  split; [apply in_or_app; right; left; reflexivity |].
  split; [apply list_lookup_insert_eq; exact Hlt |].
  split; [apply stop_all_not_live | exact Herror1].
Qed.

Lemma update_after_refused_switch_targets_stopped_stream_witness :
  let w' := exec (updateSetting Kzoom (JS.lit 3) (JS.Fulfilled tt))
              (exec (settle 0 (JS.Rejected "NotReadableError")) (exec (open "b") holding_a)) in
  In (ApplyConstraints 0 [ {| c_key := Kzoom; c_value := JS.lit 3 |} ]) (log w')
  /\ live_handles w' = [].
Proof.
  destruct (update_after_refused_switch_targets_stopped_stream holding_a 0
              {| source := Some "a"; getTracks := [camera no_capabilities reports_nothing] |}
              (camera no_capabilities reports_nothing) "b" "NotReadableError"
              Kzoom (JS.lit 3) (JS.Fulfilled tt) eq_refl eq_refl eq_refl eq_refl eq_refl)
    as (Hlog & _).
  split; [exact Hlog | reflexivity].
Defined.

(** ** Device enumeration *)

Lemma enumerated_frame inventory a :
  streamRef (enumerated inventory a) = streamRef a
  /\ srcObject (enumerated inventory a) = srcObject a
  /\ capabilities (enumerated inventory a) = capabilities a
  /\ settings (enumerated inventory a) = settings a
  /\ error (enumerated inventory a) = error a
  /\ devices (enumerated inventory a) = map to_camera (List.filter is_videoinput inventory).
Proof.
  unfold enumerated.
  destruct (map to_camera (List.filter is_videoinput inventory)) as [|first rest];
    [| destruct (JS.truthy_string (selectedDeviceId a))]; repeat split.
Qed.

Lemma enumerated_idempotent inventory a :
  enumerated inventory (enumerated inventory a) = enumerated inventory a.
Proof.
  unfold enumerated.
  destruct (map to_camera (List.filter is_videoinput inventory)) as [|first rest];
    [reflexivity |].
  destruct (JS.truthy_string (selectedDeviceId a)) eqn:Hsel; simpl.
  - rewrite Hsel. reflexivity.
  - destruct (JS.truthy_string (deviceId first)); reflexivity.
Qed.

(** The world [getCameras] leaves, in each of the ways its two requests
    can settle. *)
Lemma getCameras_cases perm inventory w :
  getCameras perm inventory w
  = (JS.Fulfilled tt,
     match perm with
     | JS.Rejected _ =>
         with_state (set_error (Some permission_message)) (call (GetUserMedia video_true) w)
     | JS.Fulfilled tracks =>
         {| state := match inventory with
                     | JS.Fulfilled found => enumerated found (state w)
                     | JS.Rejected _ => set_error (Some permission_message) (state w)
                     end;
            store := store w ++ [{| source := None; getTracks := tracks |}];
            pending := pending w;
            log := log w ++ [GetUserMedia video_true; EnumerateDevices] |}
     end).
Proof.
  destruct perm as [tracks | e]; [| apply getCameras_refused].
  destruct inventory as [found | e];
    [apply getCameras_closed | apply getCameras_inventory_refused].
Qed.

(** X8: however its two requests settle, a refresh of the device list
    returns normally and leaves the stream held, the video element, the
    capabilities, the settings and the requests in flight as they are; it
    stops no track and applies no constraint: its only calls are the
    permission request and the enumeration, and no stream of the store
    is touched. *)
Theorem getCameras_leaves_stream_alone perm inventory w :
  let w' := exec (getCameras perm inventory) w in
  outcome (getCameras perm inventory) w = JS.Fulfilled tt
  /\ streamRef (state w') = streamRef (state w)
  /\ srcObject (state w') = srcObject (state w)
  /\ capabilities (state w') = capabilities (state w)
  /\ settings (state w') = settings (state w)
  /\ pending w' = pending w
  /\ (exists delivered, store w' = store w ++ delivered)
  /\ exists calls, log w' = log w ++ calls
       /\ forall c, In c calls -> c = GetUserMedia video_true \/ c = EnumerateDevices.
Proof.
  intros w'. subst w'. unfold outcome, exec. rewrite getCameras_cases. simpl.
  split; [reflexivity |].
  destruct perm as [tracks | e]; simpl.
  - destruct (enumerated_frame (match inventory with
                                | JS.Fulfilled found => found
                                | JS.Rejected _ => []
                                end) (state w)) as (H1 & H2 & H3 & H4 & _).
    destruct inventory as [found | e]; simpl;
      repeat (split; [first [assumption | reflexivity] |]).
    + split; [eexists; reflexivity |]. eexists. split; [reflexivity |].
      intros c [<- | [<- | []]]; [left | right]; reflexivity.
    + split; [eexists; reflexivity |]. eexists. split; [reflexivity |].
      intros c [<- | [<- | []]]; [left | right]; reflexivity.
  - repeat (split; [reflexivity |]).
    split; [exists []; symmetry; apply app_nil_r |].
    eexists. split; [reflexivity |]. intros c [<- | []]. left. reflexivity.
Qed.

(** X9: a successful enumeration keeps a selection already made, even
    when the device selected is no longer in the list; with no selection
    it selects the first video device found; and it leaves the error
    state as it is, so that an earlier error stays shown. *)
Theorem getCameras_selection tracks inventory w :
  let w' := exec (getCameras (JS.Fulfilled tracks) (JS.Fulfilled inventory)) w in
  (JS.truthy_string (selectedDeviceId (state w)) = true ->
     selectedDeviceId (state w') = selectedDeviceId (state w))
  /\ (JS.truthy_string (selectedDeviceId (state w)) = false ->
      forall first rest,
        List.filter is_videoinput inventory = first :: rest ->
        selectedDeviceId (state w') = info_deviceId first)
  /\ (List.filter is_videoinput inventory = [] ->
      selectedDeviceId (state w') = selectedDeviceId (state w))
  /\ error (state w') = error (state w).
Proof.
  intros w'. subst w'. unfold exec. rewrite getCameras_closed. simpl.
  unfold enumerated.
  destruct (List.filter is_videoinput inventory) as [|first rest]; simpl.
  - repeat split; try reflexivity. intros _ first rest Hne. discriminate Hne.
  - destruct (JS.truthy_string (selectedDeviceId (state w))); simpl; repeat split;
      try reflexivity; try discriminate.
    intros _ first' rest' Heq. injection Heq as <- _. reflexivity.
Qed.

Lemma getCameras_selection_witness :
  selectedDeviceId (state enumerated_once) = "a"
  /\ selectedDeviceId
       (state (exec (getCameras (JS.Fulfilled []) (JS.Fulfilled [])) enumerated_once)) = "a".
Proof.
  split.
  - destruct (getCameras_selection [camera no_capabilities reports_nothing] [cam_a]
                initial_world) as (_ & Hfirst & _).
    apply (Hfirst eq_refl cam_a []). reflexivity.
  - destruct (getCameras_selection [] [] enumerated_once) as (Hkept & _).
    apply Hkept. reflexivity.
Defined.

(** X10: enumeration is idempotent on the React state: a second
    successful enumeration that finds the same inventory changes nothing
    of it, whatever stream its permission request delivers. *)
Theorem getCameras_idempotent tracks tracks' inventory w :
  state (exec (getCameras (JS.Fulfilled tracks') (JS.Fulfilled inventory))
              (exec (getCameras (JS.Fulfilled tracks) (JS.Fulfilled inventory)) w))
  = state (exec (getCameras (JS.Fulfilled tracks) (JS.Fulfilled inventory)) w).
Proof.
  unfold exec. rewrite !getCameras_closed. simpl. apply enumerated_idempotent.
Qed.

(** X11: the stream delivered to the permission request is neither kept
    nor stopped: when it is delivered with a running track, the live
    streams after [getCameras] are those before and this one, whether the
    enumeration that follows succeeds or fails. *)
Theorem permission_stream_left_running tracks inventory w :
  existsb is_live tracks = true ->
  let w' := exec (getCameras (JS.Fulfilled tracks) inventory) w in
  store w' !! length (store w) = Some {| source := None; getTracks := tracks |}
  /\ live_handles w' = live_handles w ++ [length (store w)].
Proof.
  intros Hlive w'. subst w'. unfold exec. rewrite getCameras_cases. simpl.
  assert (Hlookup : (store w ++ [{| source := None; getTracks := tracks |}])
                    !! length (store w)
                    = Some {| source := None; getTracks := tracks |})
    by (apply list_lookup_middle; reflexivity).
  split; [exact Hlookup |].
  unfold live_handles. simpl.
  rewrite length_app. simpl. rewrite seq_app, List.filter_app. simpl.
  rewrite Hlookup. unfold stream_live. simpl. rewrite Hlive. f_equal.
  apply List.filter_ext_in. intros h Hh. apply in_seq in Hh.
  rewrite lookup_app_l by lia. reflexivity.
Qed.

Lemma permission_stream_left_running_witness :
  live_handles (exec (getCameras (JS.Fulfilled [camera no_capabilities reports_nothing])
                                 (JS.Rejected "AbortError")) holding_a)
  = [0; 1].
Proof.
  apply (permission_stream_left_running [camera no_capabilities reports_nothing]
           (JS.Rejected "AbortError") holding_a).
  reflexivity.
Defined.

(** X12: when the permission is granted and the enumeration then fails,
    the error shown is the permission error, the device list is left as
    it was, and both requests were made. *)
Theorem enumeration_failure_reported_as_permission tracks e w :
  let w' := exec (getCameras (JS.Fulfilled tracks) (JS.Rejected e)) w in
  error (state w') = Some permission_message
  /\ devices (state w') = devices (state w)
  /\ selectedDeviceId (state w') = selectedDeviceId (state w)
  /\ log w' = log w ++ [GetUserMedia video_true; EnumerateDevices].
Proof.
  intros w'. subst w'. unfold exec. rewrite getCameras_inventory_refused.
  repeat split.
Qed.

(** ** Sessions without overlapping opens *)

Lemma release_selected w : selectedDeviceId (state (release w)) = selectedDeviceId (state w).
Proof. rewrite release_state. reflexivity. Qed.

Lemma open_on_selected id w :
  one_at_a_time w -> pending w = [] -> on_selected (exec (open id) w).
Proof.
  intros [_ Hlive] Hidle.
  assert (Hended : all_ended (release (with_state (set_selectedDeviceId id) w))).
  { apply release_all_ended. intros h s Hs Hl. apply (Hlive h s Hs Hl). }
  rewrite open_closed. destruct (JS.truthy_string id).
  - apply all_ended_release in Hended. split.
    + simpl. rewrite !release_pending, !release_state. simpl. rewrite Hidle.
      intros d [<- | []]. reflexivity.
    + intros h s Hs Hl. simpl in Hs. rewrite (Hended h s Hs) in Hl. discriminate.
  - split.
    + rewrite release_pending. simpl. rewrite Hidle. intros d [].
    + intros h s Hs Hl. rewrite (Hended h s Hs) in Hl. discriminate.
Qed.

Lemma startStream_resume_selected id answer w :
  selectedDeviceId (state (exec (startStream_resume id answer) w))
  = selectedDeviceId (state w).
Proof.
  destruct answer as [tracks | e]; [| reflexivity].
  unfold exec. rewrite startStream_resume_closed.
  destruct (head (List.filter is_video tracks)); reflexivity.
Qed.

Lemma settle_on_selected i answer w :
  one_at_a_time w -> on_selected w -> on_selected (exec (settle i answer) w).
Proof.
  intros [Hone Hlive] [Hpend Hsel]. rewrite settle_closed.
  destruct (pending w !! i) as [id|] eqn:Hi; [| split; assumption].
  assert (Hp : pending w = [id] /\ i = 0).
  { destruct (pending w) as [|d [|d' p]]; simpl in *; try lia; [discriminate |].
    destruct i; simpl in Hi; [injection Hi as ->; split; reflexivity | discriminate]. }
  destruct Hp as [Hp ->].
  assert (Hid : id = selectedDeviceId (state w)) by (apply Hpend; rewrite Hp; left; reflexivity).
  assert (Hended : all_ended w).
  { intros h s Hs. destruct (stream_live s) eqn:Hl; [| reflexivity].
    destruct (Hlive h s Hs Hl) as [_ Hnil]. congruence. }
  set (w0 := with_pending (delete 0) w).
  assert (Hp0 : pending w0 = []) by (unfold w0; simpl; rewrite Hp; reflexivity).
  split.
  - destruct answer as [tracks | e].
    + destruct (startStream_resume_holds id tracks w0) as [_ ->]. rewrite Hp0. intros d [].
    + destruct (startStream_resume_refused id e w0) as (_ & -> & _). rewrite Hp0. intros d [].
  - intros h s Hs Hl. rewrite startStream_resume_selected. simpl.
    destruct answer as [tracks | e].
    + destruct (startStream_resume_store id tracks w0) as [Hstore Href].
      rewrite Hstore in Hs. rewrite Href. simpl in *.
      destruct (decide (h < length (store w))) as [Hlt | Hge].
      * rewrite lookup_app_l in Hs by exact Hlt.
        rewrite (Hended h s Hs) in Hl. discriminate.
      * assert (Hh : h = length (store w)).
        { apply lookup_lt_Some in Hs. rewrite length_app in Hs. simpl in Hs. lia. }
        subst h. rewrite list_lookup_middle in Hs by reflexivity.
        injection Hs as <-. simpl. split; [reflexivity | congruence].
    + destruct (startStream_resume_refused id e w0) as (Hstore & _).
      rewrite Hstore in Hs. simpl in Hs.
      rewrite (Hended h s Hs) in Hl. discriminate.
Qed.

Lemma Serial_on_selected w : Serial w -> on_selected w.
Proof.
  induction 1 as [| id w Hw IH Hidle | i answer w Hw IH].
  - split; [intros d [] | intros h s Hs; discriminate Hs].
  - apply open_on_selected; [apply Serial_one_at_a_time; exact Hw | exact Hidle].
  - apply settle_on_selected; [apply Serial_one_at_a_time; exact Hw | exact IH].
Qed.

(** X13: in a session where no open is issued while another is in
    flight, a stream opened by [startStream] that has a running track is
    the stream held, and it is on the device selected. *)
Theorem serial_live_stream_on_selected_device w h s :
  Serial w ->
  store w !! h = Some s ->
  stream_live s = true ->
  streamRef (state w) = Some h
  /\ source s = Some (selectedDeviceId (state w))
  /\ active_device w = Some (selectedDeviceId (state w)).
Proof.
  intros Hserial Hs Hlive.
  destruct (Serial_on_selected w Hserial) as [_ Hsel].
  destruct (Hsel h s Hs Hlive) as [Href Hsrc].
  split; [exact Href |]. split; [exact Hsrc |].
  unfold active_device. rewrite Href. simpl. rewrite Hs. simpl. exact Hsrc.
Qed.

Lemma serial_live_stream_on_selected_device_witness :
  active_device holding_a = Some (selectedDeviceId (state holding_a)).
Proof.
  apply (serial_live_stream_on_selected_device holding_a 0
           {| source := Some "a"; getTracks := [camera no_capabilities reports_nothing] |}).
  - unfold holding_a. apply Serial_settle, Serial_open; [apply Serial_initial | reflexivity].
  - reflexivity.
  - reflexivity.
Defined.

Lemma all_ended_live_handles w : all_ended w -> live_handles w = [].
Proof.
  intros Hended. unfold live_handles.
  induction (seq 0 (length (store w))) as [|h hs IH]; [reflexivity |]. simpl.
  destruct (store w !! h) as [s|] eqn:Hs; [rewrite (Hended h s Hs) |]; exact IH.
Qed.

Lemma release_length w : length (store (release w)) = length (store w).
Proof.
  unfold release, stopTracks. destruct (streamRef (state w)) as [h|]; [| reflexivity].
  destruct (store w !! h); [simpl; apply length_insert | reflexivity].
Qed.

Lemma granted_after_all_ended id tracks w :
  all_ended w ->
  existsb is_live tracks = true ->
  live_handles (exec (startStream_resume id (JS.Fulfilled tracks)) w) = [length (store w)].
Proof.
  intros Hended Htracks.
  destruct (startStream_resume_store id tracks w) as [Hstore _].
  unfold live_handles. rewrite Hstore, length_app. simpl.
  rewrite seq_app, List.filter_app. simpl.
  rewrite list_lookup_middle by reflexivity.
  unfold stream_live at 2. simpl. rewrite Htracks.
  replace (List.filter _ (seq 0 (length (store w)))) with (live_handles w).
  - rewrite (all_ended_live_handles w Hended). reflexivity.
  - unfold live_handles. apply List.filter_ext_in. intros h Hh. apply in_seq in Hh.
    rewrite lookup_app_l by lia. reflexivity.
Qed.

(** X14: in such a session the release run when the component goes away
    leaves no stream opened by [startStream] with a running track; a
    result that arrives after it is installed all the same, and its
    stream is then the one that runs. *)
Theorem serial_release_ends_every_stream w :
  Serial w ->
  live_handles (exec stop_previous w) = []
  /\ forall i id tracks,
       pending w !! i = Some id ->
       existsb is_live tracks = true ->
       live_handles (exec (settle i (JS.Fulfilled tracks)) (exec stop_previous w))
       = [length (store w)].
Proof.
  intros Hserial.
  destruct (Serial_one_at_a_time w Hserial) as [_ Hlive].
  assert (Hended : all_ended (release w)).
  { apply release_all_ended. intros h s Hs Hl. apply (Hlive h s Hs Hl). }
  assert (Hrelease : exec stop_previous w = release w)
    by (unfold exec; rewrite stop_previous_release; reflexivity).
  rewrite Hrelease.
  split; [apply all_ended_live_handles; exact Hended |].
  intros i id tracks Hi Htracks.
  rewrite settle_closed, release_pending, Hi.
  rewrite granted_after_all_ended; [| exact Hended | exact Htracks].
  simpl. rewrite release_length. reflexivity.
Qed.

Lemma serial_release_ends_every_stream_witness :
  live_handles (exec stop_previous holding_a) = []
  /\ live_handles (exec (settle 0 (JS.Fulfilled [camera no_capabilities reports_nothing]))
                        (exec stop_previous (exec (open "b") holding_a)))
     = [1].
Proof.
  split.
  - apply (serial_release_ends_every_stream holding_a).
    unfold holding_a. apply Serial_settle, Serial_open; [apply Serial_initial | reflexivity].
  - apply (serial_release_ends_every_stream (exec (open "b") holding_a)) with (id := "b").
    + apply Serial_open; [| reflexivity].
      unfold holding_a. apply Serial_settle, Serial_open; [apply Serial_initial | reflexivity].
    + reflexivity.
    + reflexivity.
Defined.

(** ** Whole sessions *)

Ltac wf_split := unfold well_formed; split; [| split; [| split; [| split]]].

Lemma to_camera_label device : label (to_camera device) <> EmptyString.
Proof.
  unfold to_camera; simpl.
  destruct (info_label device) as [|c rest]; simpl; discriminate.
Qed.

Lemma well_formed_release w : well_formed w -> well_formed (release w).
Proof.
  intros (Hsrc & Hheld & Hpend & Hsources & Hlabels).
  unfold release. destruct (streamRef (state w)) as [h0|] eqn:Href;
    [| wf_split; try assumption; rewrite Href; assumption].
  unfold stopTracks. destruct (store w !! h0) as [s0|] eqn:Hs0;
    [| wf_split; try assumption; rewrite Href; assumption].
  wf_split; simpl; try assumption.
  - rewrite Href. exact Hsrc.
  - intros h Hh. rewrite length_insert. apply Hheld. rewrite Href in Hh. exact Hh.
  - intros h s id Hs Hid.
    destruct (decide (h0 = h)) as [<- | Hne].
    + rewrite list_lookup_insert_eq in Hs by (apply lookup_lt_Some with s0; exact Hs0).
      injection Hs as <-. apply (Hsources h0 s0 id Hs0 Hid).
    + rewrite list_lookup_insert_ne in Hs by exact Hne. apply (Hsources h s id Hs Hid).
Qed.

Lemma well_formed_open id w : well_formed w -> well_formed (exec (open id) w).
Proof.
  intros Hwf. rewrite open_closed.
  assert (Hsel : well_formed (with_state (set_selectedDeviceId id) w)) by exact Hwf.
  apply well_formed_release in Hsel.
  destruct (JS.truthy_string id) eqn:Hid; [| exact Hsel].
  apply well_formed_release in Hsel.
  destruct Hsel as (Hsrc & Hheld & Hpend & Hsources & Hlabels).
  wf_split; simpl; try assumption.
  apply Forall_app. split; [exact Hpend | constructor; [exact Hid | constructor]].
Qed.

Lemma well_formed_delivered id tracks a w :
  well_formed w ->
  JS.truthy_string id = true ->
  srcObject a = Some (length (store w)) ->
  streamRef a = Some (length (store w)) ->
  devices a = devices (state w) ->
  forall l,
  well_formed {| state := a;
                 store := store w ++ [{| source := Some id; getTracks := tracks |}];
                 pending := pending w;
                 log := l |}.
Proof.
  intros (Hsrc & Hheld & Hpend & Hsources & Hlabels) Hid Ha1 Ha2 Ha3 l.
  wf_split; simpl; try assumption.
  - congruence.
  - intros h Hh. rewrite length_app. simpl. rewrite Ha2 in Hh. injection Hh as <-. lia.
  - intros h s id' Hs Hid'.
    destruct (decide (h < length (store w))) as [Hlt | Hge].
    + rewrite lookup_app_l in Hs by exact Hlt. apply (Hsources h s id' Hs Hid').
    + assert (Hh : h = length (store w)).
      { apply lookup_lt_Some in Hs. rewrite length_app in Hs. simpl in Hs. lia. }
      subst h. rewrite list_lookup_middle in Hs by reflexivity.
      injection Hs as <-. simpl in Hid'. injection Hid' as <-. exact Hid.
  - rewrite Ha3. exact Hlabels.
Qed.

Lemma well_formed_settle i answer w : well_formed w -> well_formed (exec (settle i answer) w).
Proof.
  intros Hwf. rewrite settle_closed.
  destruct (pending w !! i) as [id|] eqn:Hi; [| exact Hwf].
  assert (Hid : JS.truthy_string id = true).
  { destruct Hwf as (_ & _ & Hpend & _).
    rewrite Forall_lookup in Hpend. apply (Hpend i id Hi). }
  assert (Hwf0 : well_formed (with_pending (delete i) w)).
  { destruct Hwf as (Hsrc & Hheld & Hpend & Hsources & Hlabels).
    wf_split; simpl; try assumption. apply Forall_delete. exact Hpend. }
  destruct answer as [tracks | e].
  - unfold exec. rewrite startStream_resume_closed. simpl.
    destruct (head (List.filter is_video tracks)) as [track|];
      apply (well_formed_delivered id tracks _ _ Hwf0 Hid); reflexivity.
  - destruct Hwf0 as (Hsrc & Hheld & Hpend & Hsources & Hlabels).
    wf_split; simpl; assumption.
Qed.

Lemma well_formed_getCameras perm inventory w :
  well_formed w -> well_formed (exec (getCameras perm inventory) w).
Proof.
  intros (Hsrc & Hheld & Hpend & Hsources & Hlabels).
  unfold exec. rewrite getCameras_cases. simpl.
  destruct perm as [tracks | e]; [| wf_split; simpl; assumption].
  assert (Hstore : forall h s id,
            (store w ++ [{| source := None; getTracks := tracks |}]) !! h = Some s ->
            source s = Some id -> JS.truthy_string id = true).
  { intros h s id Hs Hid.
    destruct (decide (h < length (store w))) as [Hlt | Hge].
    - rewrite lookup_app_l in Hs by exact Hlt. apply (Hsources h s id Hs Hid).
    - assert (Hh : h = length (store w)).
      { apply lookup_lt_Some in Hs. rewrite length_app in Hs. simpl in Hs. lia. }
      subst h. rewrite list_lookup_middle in Hs by reflexivity.
      injection Hs as <-. discriminate Hid. }
  destruct inventory as [found | e]; simpl.
  - destruct (enumerated_frame found (state w)) as (H1 & H2 & _ & _ & _ & H6).
    wf_split; simpl; try assumption.
    + congruence.
    + intros h Hh. rewrite length_app. simpl. rewrite H1 in Hh. specialize (Hheld h Hh). lia.
    + rewrite H6. apply Forall_forall. intros d Hd.
      apply list_elem_of_In, in_map_iff in Hd as (device & <- & _). apply to_camera_label.
  - wf_split; simpl; try assumption.
    intros h Hh. rewrite length_app. simpl. specialize (Hheld h Hh). lia.
Qed.

Lemma well_formed_updateSetting key value answer w :
  well_formed w -> well_formed (exec (updateSetting key value answer) w).
Proof.
  intros (Hsrc & Hheld & Hpend & Hsources & Hlabels).
  rewrite updateSetting_world. wf_split; simpl; assumption.
Qed.

(** X15: in every state a session goes through, whatever the operations
    and the answers of the host: the video element shows the stream held,
    the stream held exists, every request in flight and every stream
    opened on a device is for a non-empty device id, and every device
    listed has a non-empty label. *)
Theorem session_well_formed w : Session w -> well_formed w.
Proof.
  induction 1 as [| a w _ IH].
  - wf_split; simpl; try constructor; discriminate.
  - destruct a as [id | i answer | perm inventory | key value answer | rendered answer];
      simpl.
    + apply well_formed_open. exact IH.
    + apply well_formed_settle. exact IH.
    + apply well_formed_getCameras. exact IH.
    + apply well_formed_updateSetting. exact IH.
    + unfold exec. rewrite toggleFocusMode_closed.
      apply well_formed_updateSetting. exact IH.
Qed.

Lemma session_well_formed_witness : well_formed holding_a.
Proof.
  apply session_well_formed. unfold holding_a.
  apply (Session_step (Arrive 0 (JS.Fulfilled [camera no_capabilities reports_nothing]))).
  apply (Session_step (Select "a")). apply Session_start.
Defined.

Lemma evolves_refl w : evolves w w.
Proof.
  split; [exists []; symmetry; apply app_nil_r | intros h s Hs; left; exact Hs].
Qed.

Lemma evolves_trans w1 w2 w3 : evolves w1 w2 -> evolves w2 w3 -> evolves w1 w3.
Proof.
  intros [[l1 Hl1] Hs1] [[l2 Hl2] Hs2]. split.
  - exists (l1 ++ l2). rewrite Hl2, Hl1, app_assoc. reflexivity.
  - intros h s Hs. destruct (Hs1 h s Hs) as [H2 | H2].
    + apply (Hs2 h s H2).
    + destruct (Hs2 h _ H2) as [H3 | H3]; right; [exact H3 |].
      rewrite stop_all_idempotent in H3. exact H3.
Qed.

(** A step that extends the log and appends streams to the store. *)
Lemma evolves_extend w w' calls delivered :
  log w' = log w ++ calls -> store w' = store w ++ delivered -> evolves w w'.
Proof.
  intros Hlog Hstore. split; [exists calls; exact Hlog |].
  intros h s Hs. left. rewrite Hstore. apply lookup_app_l_Some. exact Hs.
Qed.

Lemma evolves_release w : evolves w (release w).
Proof.
  unfold release. destruct (streamRef (state w)) as [h0|]; [| apply evolves_refl].
  unfold stopTracks. destruct (store w !! h0) as [s0|] eqn:Hs0; [| apply evolves_refl].
  split; simpl; [eexists; reflexivity |].
  intros h s Hs. destruct (decide (h0 = h)) as [<- | Hne].
  - right. rewrite list_lookup_insert_eq by (apply lookup_lt_Some with s0; exact Hs0).
    congruence.
  - left. rewrite list_lookup_insert_ne by exact Hne. exact Hs.
Qed.

Lemma evolves_perform a w : evolves w (exec (perform a) w).
Proof.
  destruct a as [id | i answer | perm inventory | key value answer | rendered answer]; simpl.
  - rewrite open_closed.
    pose proof (evolves_release (with_state (set_selectedDeviceId id) w)) as H1.
    assert (H0 : evolves w (release (with_state (set_selectedDeviceId id) w))).
    { destruct H1 as [Hl Hs]. split; [exact Hl | exact Hs]. }
    destruct (JS.truthy_string id); [| exact H0].
    eapply evolves_trans; [exact H0 |].
    eapply evolves_trans; [apply evolves_release |].
    eapply (evolves_extend _ _ _ []); simpl; [reflexivity | symmetry; apply app_nil_r].
  - rewrite settle_closed. destruct (pending w !! i) as [id|]; [| apply evolves_refl].
    destruct answer as [tracks | e].
    + unfold exec. rewrite startStream_resume_closed. simpl.
      destruct (head (List.filter is_video tracks)).
      * eapply (evolves_extend _ _ []); simpl; [symmetry; apply app_nil_r | reflexivity].
      * eapply evolves_extend; simpl; reflexivity.
    + eapply (evolves_extend _ _ _ []); simpl; [reflexivity | symmetry; apply app_nil_r].
  - unfold exec. rewrite getCameras_cases. simpl.
    destruct perm as [tracks | e].
    + eapply evolves_extend; simpl; reflexivity.
    + eapply (evolves_extend _ _ _ []); simpl; [reflexivity | symmetry; apply app_nil_r].
  - rewrite updateSetting_world.
    eapply (evolves_extend _ _ _ []); simpl; [reflexivity | symmetry; apply app_nil_r].
  - unfold exec. rewrite toggleFocusMode_closed.
    change (evolves w (exec (updateSetting KfocusMode
                               (toggled (focusMode rendered)) answer) w)).
    rewrite updateSetting_world.
    eapply (evolves_extend _ _ _ []); simpl; [reflexivity | symmetry; apply app_nil_r].
Qed.

(** X16: no sequence of operations erases a logged call, removes a stream
    from the store or restarts a stopped track: after it the log extends
    the earlier one and every earlier stream is still at its handle,
    unchanged or with all its tracks stopped; in particular a stream
    that is live afterwards was live before. *)
Theorem play_only_stops actions w :
  (exists calls, log (play actions w) = log w ++ calls)
  /\ forall h s,
       store w !! h = Some s ->
       exists s', store (play actions w) !! h = Some s'
                  /\ (s' = s \/ s' = stop_all s)
                  /\ source s' = source s
                  /\ (stream_live s' = true -> stream_live s = true).
Proof.
  assert (Hev : evolves w (play actions w)).
  { revert w. induction actions as [|a actions IH]; intros w; [apply evolves_refl |].
    simpl. eapply evolves_trans; [apply evolves_perform | apply IH]. }
  destruct Hev as [Hlog Hstore]. split; [exact Hlog |].
  intros h s Hs. destruct (Hstore h s Hs) as [H' | H'].
  - exists s. repeat split; auto.
  - exists (stop_all s). split; [exact H' |]. split; [right; reflexivity |].
    split; [reflexivity |]. rewrite stop_all_not_live. discriminate.
Qed.

Lemma play_only_stops_witness :
  exists s', store (play [Select "b"; ToggleFocus initial_settings (JS.Fulfilled tt)] holding_a) !! 0 = Some s'
             /\ stream_live s' = false.
Proof.
  destruct (play_only_stops [Select "b"; ToggleFocus initial_settings (JS.Fulfilled tt)] holding_a) as [_ Hstore].
  destruct (Hstore 0 {| source := Some "a"; getTracks := [camera no_capabilities reports_nothing] |}
              eq_refl) as (s' & Hs' & _).
  exists s'. split; [exact Hs' |].
  vm_compute in Hs'. injection Hs' as <-. reflexivity.
Defined.

(** ** The sliders and the label of the selected camera *)

(** X17: right after a stream opens on a track that reports no current
    value for the field of a slider, the value shown by that slider lies
    within the slider's bounds, whether no range is advertised for the
    field (the bounds are then the defaults of the slider) or a range
    with a non-zero minimum not above its maximum. *)
Theorem slider_starts_within_bounds k id tracks track w :
  head (getVideoTracks {| source := Some id; getTracks := tracks |}) = Some track ->
  reported (slider_field k) (getSettings track) = None ->
  (range_of (slider_field k) (getCapabilities track) = None
   \/ exists r, range_of (slider_field k) (getCapabilities track) = Some r
                /\ JS.truthy (min r) = true /\ JS.le (min r) (max r) = true) ->
  within_slider (slider k (state (exec (startStream_resume id (JS.Fulfilled tracks)) w)))
  = true.
Proof.
  intros Htrack Hnone Hrange. unfold getVideoTracks in Htrack. simpl in Htrack.
  unfold exec. rewrite (startStream_resume_granted id tracks track w Htrack).
  cbn [snd]. set (a := state (opened id tracks track w)).
  assert (Hvalue : slider_value (slider k a)
                   = value_of (slider_field k)
                       (reconcile (settings (state w)) (getCapabilities track)
                                  (getSettings track)))
    by (destruct k; reflexivity).
  assert (Hlow : slider_min (slider k a)
                 = nullish (min <$> range_of (slider_field k) (getCapabilities track))
                     (match k with SfocusDistance => JS.lit 0 | Szoom => JS.lit 1
                                 | Sbrightness => JS.lit 0 end))
    by (destruct k; reflexivity).
  assert (Hhigh : slider_max (slider k a)
                  = nullish (max <$> range_of (slider_field k) (getCapabilities track))
                      (match k with SfocusDistance => JS.lit 1 | Szoom => JS.lit 5
                                  | Sbrightness => JS.lit 255 end))
    by (destruct k; reflexivity).
  unfold within_slider. rewrite Hvalue, Hlow, Hhigh, reconcile_field, Hnone.
  destruct Hrange as [Hr | (r & Hr & Hmin & Hle)]; rewrite Hr; simpl.
  - destruct k; reflexivity.
  - rewrite Hmin, Hle.
    rewrite number_le_refl by (apply truthy_not_nan; exact Hmin). reflexivity.
Qed.

Lemma slider_starts_within_bounds_witness :
  within_slider (slider Szoom (state (exec (startStream_resume "a"
     (JS.Fulfilled [camera zoom_1_to_5 reports_nothing])) initial_world))) = true
  /\ within_slider (slider Sbrightness (state (exec (startStream_resume "a"
       (JS.Fulfilled [camera zoom_1_to_5 reports_nothing])) initial_world))) = true.
Proof.
  split.
  - apply (slider_starts_within_bounds Szoom "a" [camera zoom_1_to_5 reports_nothing]
             (camera zoom_1_to_5 reports_nothing) initial_world).
    + reflexivity.
    + reflexivity.
    + right. eexists. split; [reflexivity | split; reflexivity].
  - apply (slider_starts_within_bounds Sbrightness "a" [camera zoom_1_to_5 reports_nothing]
             (camera zoom_1_to_5 reports_nothing) initial_world).
    + reflexivity.
    + reflexivity.
    + left. reflexivity.
Defined.

(** With an advertised minimum of 0 the slider starts outside its bounds
    when the literal default is above the maximum. *)
Example slider_starts_outside_bounds :
  within_slider (slider Sbrightness (state (exec (startStream_resume "a"
     (JS.Fulfilled [camera
        {| caps_focusMode := None; caps_focusDistance := None; caps_zoom := None;
           caps_brightness := Some {| min := JS.lit 0; max := JS.lit 64; step := JS.lit 1 |};
           caps_contrast := None; caps_saturation := None; caps_sharpness := None |}
        reports_nothing])) initial_world))) = false.
Proof. reflexivity. Qed.

(** X18: after an enumeration that finds a video device while none is
    selected, the camera label handed to the script panel is the label of
    the first video device found, and it is not empty. *)
Theorem cameraLabel_of_first_device tracks inventory first rest w :
  JS.truthy_string (selectedDeviceId (state w)) = false ->
  List.filter is_videoinput inventory = first :: rest ->
  let w' := exec (getCameras (JS.Fulfilled tracks) (JS.Fulfilled inventory)) w in
  cameraLabel (state w') = label (to_camera first)
  /\ cameraLabel (state w') <> EmptyString.
Proof.
  intros Hsel Hfound w'. subst w'. unfold exec. rewrite getCameras_closed. cbn [snd state].
  assert (Hlabel : cameraLabel (enumerated inventory (state w))
                   = JS.or_string (Some (label (to_camera first))) EmptyString).
  { unfold enumerated. rewrite Hfound, Hsel.
    unfold cameraLabel, set_selectedDeviceId, set_devices.
    cbn [map devices selectedDeviceId List.find].
    change (deviceId (to_camera first)) with (info_deviceId first).
    rewrite String.eqb_refl. reflexivity. }
  rewrite Hlabel.
  pose proof (to_camera_label first) as Hne.
  destruct (label (to_camera first)) as [|c l]; [congruence |].
  split; [reflexivity | discriminate].
Qed.

Lemma cameraLabel_of_first_device_witness : cameraLabel (state enumerated_once) = "Cam A".
Proof.
  apply (cameraLabel_of_first_device [camera no_capabilities reports_nothing] [cam_a]
           cam_a [] initial_world); reflexivity.
Defined.

(** ** Script request *)

Section ScriptPrompt.

Import Service.

Variable show : JS.number -> string.

Lemma includes_unfold needle s :
  includes needle s
  = if String.prefix needle s then true
    else match s with
         | EmptyString => false
         | String _ rest => includes needle rest
         end.
Proof. destruct s; reflexivity. Qed.

Lemma prefix_append needle s : String.prefix needle (needle ++ s)%string = true.
Proof.
  induction needle as [|c needle IH]; simpl; [destruct s; reflexivity |].
  destruct (ascii_dec c c); [exact IH | congruence].
Qed.

Lemma includes_here needle s : includes needle (needle ++ s)%string = true.
Proof. rewrite includes_unfold, prefix_append. reflexivity. Qed.

Lemma append_empty s : (s ++ EmptyString)%string = s.
Proof. induction s as [|c s IH]; simpl; [reflexivity | rewrite IH; reflexivity]. Qed.

Lemma includes_self needle : includes needle needle = true.
Proof.
  pose proof (includes_here needle EmptyString) as H.
  rewrite append_empty in H. exact H.
Qed.

Lemma includes_after needle before s :
  includes needle s = true -> includes needle (before ++ s)%string = true.
Proof.
  intros Hs. induction before as [|c before IH]; [exact Hs |].
  change (String c before ++ s)%string with (String c (before ++ s)%string).
  rewrite includes_unfold, IH. destruct (String.prefix needle _); reflexivity.
Qed.

Lemma prefix_before needle s after :
  String.prefix needle s = true -> String.prefix needle (s ++ after)%string = true.
Proof.
  revert s. induction needle as [|c needle IH]; intros s Hs; simpl;
    [destruct (s ++ after)%string; reflexivity |].
  destruct s as [|c' s]; simpl in *; [discriminate |].
  destruct (ascii_dec c c'); [apply IH; exact Hs | discriminate].
Qed.

Lemma includes_before needle s after :
  includes needle s = true -> includes needle (s ++ after)%string = true.
Proof.
  induction s as [|c s IH]; intros Hs.
  - rewrite includes_unfold in Hs. rewrite includes_unfold.
    destruct (String.prefix needle EmptyString) eqn:Hp; [| discriminate].
    rewrite (prefix_before needle EmptyString after Hp). reflexivity.
  - rewrite includes_unfold in Hs.
    change (String c s ++ after)%string with (String c (s ++ after)%string).
    rewrite includes_unfold.
    destruct (String.prefix needle (String c s)) eqn:Hp.
    + change (String c (s ++ after)%string) with (String c s ++ after)%string.
      rewrite (prefix_before needle (String c s) after Hp). reflexivity.
    + rewrite (IH Hs).
      destruct (String.prefix needle (String c (s ++ after)%string)); reflexivity.
Qed.

Lemma includes_lines needle line l :
  In line l -> includes needle line = true -> includes needle (lines l) = true.
Proof.
  intros Hin Hline. unfold lines.
  induction l as [|x l IH]; [destruct Hin |].
  simpl. destruct l as [|y l'].
  - destruct Hin as [<- | []]. exact Hline.
  - destruct Hin as [<- | Hin].
    + apply includes_before. exact Hline.
    + apply includes_after. exact (includes_after needle nl _ (IH Hin)).
Qed.

Ltac on_line L :=
  apply includes_lines with (line := L);
  [ simpl; repeat (first [left; reflexivity | right])
  | first [ apply includes_after, includes_self
          | apply includes_after, includes_here ] ].

(** The prompt of either flavour names the target system, quotes the
    camera name, and carries the four numeric settings as shown. *)
Lemma prompt_carries_parameters params :
  let prompt := match scriptType params with
                | python => python_prompt show params
                | native => native_prompt show params
                end in
  includes (os_name (os params)) prompt = true
  /\ includes (dq ++ cameraName params ++ dq)%string prompt = true
  /\ includes (show (focusDistance (p_settings params))) prompt = true
  /\ includes (show (zoom (p_settings params))) prompt = true
  /\ includes (show (brightness (p_settings params))) prompt = true
  /\ includes (show (contrast (p_settings params))) prompt = true.
Proof.
  destruct (scriptType params); cbv zeta; unfold python_prompt, native_prompt.
  - split; [on_line ("    Target OS: " ++ os_name (os params))%string |].
    split; [on_line ("    Camera Name: " ++ dq ++ cameraName params ++ dq)%string |].
    split; [on_line ("    - Focus Distance: " ++ show (focusDistance (p_settings params))
                     ++ " (Normalized value 0-1 or raw driver value)")%string |].
    split; [on_line ("    - Zoom: " ++ show (zoom (p_settings params)))%string |].
    split; [on_line ("    - Brightness: " ++ show (brightness (p_settings params)))%string |].
    on_line ("    - Contrast: " ++ show (contrast (p_settings params)))%string.
  - split; [on_line ("    Target OS: " ++ os_name (os params))%string |].
    split; [on_line ("    Camera Name: " ++ dq ++ cameraName params ++ dq)%string |].
    split; [on_line ("    - Focus Distance: " ++ show (focusDistance (p_settings params)))%string |].
    split; [on_line ("    - Zoom: " ++ show (zoom (p_settings params)))%string |].
    split; [on_line ("    - Brightness: " ++ show (brightness (p_settings params)))%string |].
    on_line ("    - Contrast: " ++ show (contrast (p_settings params)))%string.
Qed.

(** X19: with a credential configured, script generation sends exactly
    one request, with that credential, and hands the outcome of the
    service to its caller unchanged: the text of the response, or the
    error raised, which it also logs. The prompt of the request names the
    target system, quotes the camera name and carries the four numeric
    settings as JavaScript shows them, for either script flavour. *)
Theorem generateSystemScript_request apiKey params answer :
  JS.truthy_string apiKey = true ->
  exists prompt,
    fst (generateSystemScript show (Some apiKey) params answer)
    = GenerateContent apiKey "gemini-3-flash-preview" prompt
      :: match answer with
         | JS.Fulfilled _ => []
         | JS.Rejected e => [LogError e]
         end
    /\ snd (generateSystemScript show (Some apiKey) params answer) = answer
    /\ includes (os_name (os params)) prompt = true
    /\ includes (dq ++ cameraName params ++ dq)%string prompt = true
    /\ includes (show (focusDistance (p_settings params))) prompt = true
    /\ includes (show (zoom (p_settings params))) prompt = true
    /\ includes (show (brightness (p_settings params))) prompt = true
    /\ includes (show (contrast (p_settings params))) prompt = true.
Proof.
  intros Hkey. unfold generateSystemScript. rewrite Hkey. simpl negb. cbv iota.
  eexists. split; [destruct answer; reflexivity |].
  split; [destruct answer; reflexivity |].
  apply prompt_carries_parameters.
Qed.

(** X20: whatever happens, [handleGenerate] ends with the loading flag
    down and the choices of the panel untouched. With a credential: when
    the service answers, the panel shows the text of the answer and no
    error; when the service fails, the panel keeps the script generated
    before and shows the message of the failure. With an empty camera
    label the request names "Default Camera". *)
Theorem handleGenerate_outcomes apiKey settings label answer p :
  JS.truthy_string apiKey = true ->
  let after := snd (handleGenerate show (Some apiKey) settings label answer p) in
  isLoading after = false
  /\ selectedOS after = selectedOS p
  /\ panel_scriptType after = panel_scriptType p
  /\ (forall text, answer = JS.Fulfilled text ->
        generatedScript after = text /\ panel_error after = None)
  /\ (forall e, answer = JS.Rejected e ->
        generatedScript after = generatedScript p /\ panel_error after = Some e)
  /\ (label = EmptyString ->
      exists prompt rest,
        fst (handleGenerate show (Some apiKey) settings label answer p)
        = GenerateContent apiKey "gemini-3-flash-preview" prompt :: rest
        /\ includes (dq ++ "Default Camera" ++ dq)%string prompt = true).
Proof.
  intros Hkey after. subst after. unfold handleGenerate.
  set (params := {| os := selectedOS p;
                    cameraName := if JS.truthy_string label then label else "Default Camera";
                    p_settings := settings;
                    scriptType := panel_scriptType p |}).
  destruct (generateSystemScript_request apiKey params answer Hkey)
    as (prompt & Hcalls & Hanswer & _ & Hname & _).
  destruct (generateSystemScript show (Some apiKey) params answer) as [calls result].
  simpl in Hcalls, Hanswer. subst result.
  destruct answer as [text | e]; simpl;
    (split; [reflexivity |]); (split; [reflexivity |]); (split; [reflexivity |]).
  - split; [intros t Ht; injection Ht as <-; split; reflexivity |].
    split; [intros e He; discriminate He |].
    intros ->. exists prompt, []. split; [exact Hcalls | exact Hname].
  - split; [intros t Ht; discriminate Ht |].
    split; [intros e' He; injection He as <-; split; reflexivity |].
    intros ->. exists prompt, [LogError e]. split; [exact Hcalls | exact Hname].
Qed.

End ScriptPrompt.

Lemma generateSystemScript_request_witness :
  snd (Service.generateSystemScript (fun _ => "1") (Some "k")
         {| Service.os := Service.LINUX; Service.cameraName := "Cam A";
            Service.p_settings := initial_settings; Service.scriptType := Service.native |}
         (JS.Fulfilled "#!/bin/sh"))
  = JS.Fulfilled "#!/bin/sh".
Proof.
  destruct (generateSystemScript_request (fun _ => "1") "k"
              {| Service.os := Service.LINUX; Service.cameraName := "Cam A";
                 Service.p_settings := initial_settings;
                 Service.scriptType := Service.native |}
              (JS.Fulfilled "#!/bin/sh") eq_refl) as (prompt & _ & Hanswer & _).
  exact Hanswer.
Defined.

Lemma handleGenerate_outcomes_witness :
  Service.isLoading
    (snd (Service.handleGenerate (fun _ => "1") (Some "k") initial_settings EmptyString
            (JS.Rejected "503")
            {| Service.selectedOS := Service.LINUX; Service.panel_scriptType := Service.python;
               Service.generatedScript := "old"; Service.isLoading := true;
               Service.panel_error := None |}))
  = false.
Proof.
  destruct (handleGenerate_outcomes (fun _ => "1") "k" initial_settings EmptyString
              (JS.Rejected "503")
              {| Service.selectedOS := Service.LINUX; Service.panel_scriptType := Service.python;
                 Service.generatedScript := "old"; Service.isLoading := true;
                 Service.panel_error := None |} eq_refl) as (Hloading & _).
  exact Hloading.
Defined.

(** ** C7: one stream of [startStream] at a time *)

Lemma release_opened_ended w :
  (forall h s, store w !! h = Some s -> on_device s = true -> stream_live s = true ->
     streamRef (state w) = Some h) ->
  forall h s, store (release w) !! h = Some s -> on_device s = true -> stream_live s = false.
Proof.
  intros Hheld h s Hs Hdev. unfold release in Hs.
  destruct (stream_live s) eqn:Hlive; [| reflexivity]. exfalso.
  destruct (streamRef (state w)) as [h0|] eqn:Href.
  - unfold stopTracks in Hs. destruct (store w !! h0) as [s0|] eqn:Hs0.
    + simpl in Hs. destruct (decide (h0 = h)) as [-> | Hne].
      * rewrite list_lookup_insert_eq in Hs by (apply lookup_lt_Some with s0; exact Hs0).
        injection Hs as <-. rewrite stop_all_not_live in Hlive. discriminate.
      * rewrite list_lookup_insert_ne in Hs by exact Hne.
        specialize (Hheld h s Hs Hdev Hlive). congruence.
    + specialize (Hheld h s Hs Hdev Hlive). congruence.
  - specialize (Hheld h s Hs Hdev Hlive). congruence.
Qed.

Lemma open_one_opened id w :
  one_opened_at_a_time w -> pending w = [] -> one_opened_at_a_time (exec (open id) w).
Proof.
  intros [_ Hlive] Hidle.
  pose proof (release_opened_ended (with_state (set_selectedDeviceId id) w)
                (fun h s Hs Hd Hl => proj1 (Hlive h s Hs Hd Hl))) as Hended.
  rewrite open_closed. destruct (JS.truthy_string id).
  - pose proof (release_opened_ended (release (with_state (set_selectedDeviceId id) w)))
      as Hended2.
    split.
    + simpl. rewrite !release_pending. simpl. rewrite Hidle. simpl. lia.
    + intros h s Hs Hd Hl. simpl in Hs.
      rewrite (Hended2 (fun h' s' Hs' Hd' Hl' =>
                 ltac:(rewrite (Hended h' s' Hs' Hd') in Hl'; discriminate)) h s Hs Hd) in Hl.
      discriminate.
  - split.
    + rewrite release_pending. simpl. rewrite Hidle. simpl. lia.
    + intros h s Hs Hd Hl. rewrite (Hended h s Hs Hd) in Hl. discriminate.
Qed.

Lemma settle_one_opened i answer w :
  one_opened_at_a_time w -> one_opened_at_a_time (exec (settle i answer) w).
Proof.
  intros [Hone Hlive]. rewrite settle_closed.
  destruct (pending w !! i) as [id|] eqn:Hi; [| split; assumption].
  assert (Hp : pending w = [id] /\ i = 0).
  { destruct (pending w) as [|d [|d' p]]; simpl in *; try lia; [discriminate |].
    destruct i; simpl in Hi; [injection Hi as ->; split; reflexivity | discriminate]. }
  destruct Hp as [Hp ->].
  assert (Hended : forall h s, store w !! h = Some s -> on_device s = true ->
                               stream_live s = false).
  { intros h s Hs Hd. destruct (stream_live s) eqn:Hl; [| reflexivity].
    destruct (Hlive h s Hs Hd Hl) as [_ Hnil]. congruence. }
  destruct answer as [tracks | e].
  - destruct (startStream_resume_store id tracks (with_pending (delete 0) w)) as [Hstore Href].
    destruct (startStream_resume_holds id tracks (with_pending (delete 0) w)) as [_ Hpend].
    simpl in Hstore, Href, Hpend. rewrite Hp in Hpend. simpl in Hpend.
    split; [rewrite Hpend; simpl; lia |].
    intros h s Hs Hd Hl. rewrite Hstore in Hs. split; [| exact Hpend].
    rewrite Href. f_equal.
    destruct (decide (h < length (store w))) as [Hlt | Hge].
    + rewrite lookup_app_l in Hs by exact Hlt.
      rewrite (Hended h s Hs Hd) in Hl. discriminate.
    + apply lookup_lt_Some in Hs. rewrite length_app in Hs. simpl in Hs. lia.
  - destruct (startStream_resume_refused id e (with_pending (delete 0) w))
      as (Hstore & Hpend & _).
    split.
    + rewrite Hpend. simpl. rewrite Hp. simpl. lia.
    + intros h s Hs Hd Hl. rewrite Hstore in Hs. simpl in Hs.
      rewrite (Hended h s Hs Hd) in Hl. discriminate.
Qed.

Lemma getCameras_one_opened perm inventory w :
  one_opened_at_a_time w -> one_opened_at_a_time (exec (getCameras perm inventory) w).
Proof.
  intros [Hone Hlive]. unfold exec. rewrite getCameras_cases. simpl.
  destruct perm as [tracks | e]; [| split; [exact Hone | exact Hlive]].
  split; [exact Hone |]. simpl.
  intros h s Hs Hd Hl.
  assert (Hold : store w !! h = Some s).
  { destruct (decide (h < length (store w))) as [Hlt | Hge].
    - rewrite lookup_app_l in Hs by exact Hlt. exact Hs.
    - assert (Hh : h = length (store w)).
      { apply lookup_lt_Some in Hs. rewrite length_app in Hs. simpl in Hs. lia. }
      subst h. rewrite list_lookup_middle in Hs by reflexivity.
      injection Hs as <-. discriminate Hd. }
  destruct (Hlive h s Hold Hd Hl) as [Href Hnil]. split; [| exact Hnil].
  destruct inventory as [found | e]; simpl; [| exact Href].
  destruct (enumerated_frame found (state w)) as (-> & _). exact Href.
Qed.

Lemma updateSetting_one_opened key value answer w :
  one_opened_at_a_time w -> one_opened_at_a_time (exec (updateSetting key value answer) w).
Proof. intros Hw. rewrite updateSetting_world. exact Hw. Qed.

Lemma Orderly_one_opened w : Orderly w -> one_opened_at_a_time w.
Proof.
  induction 1 as [| id w _ IH Hidle | a w _ IH Hother].
  - split; [simpl; lia | intros h s Hs; discriminate Hs].
  - apply open_one_opened; assumption.
  - destruct a as [id | i answer | perm inventory | key value answer | rendered answer]; simpl.
    + destruct (Hother id). reflexivity.
    + apply settle_one_opened. exact IH.
    + apply getCameras_one_opened. exact IH.
    + apply updateSetting_one_opened. exact IH.
    + unfold exec. rewrite toggleFocusMode_closed.
      apply updateSetting_one_opened. exact IH.
Qed.

Lemma one_opened_live w : one_opened_at_a_time w -> length (live_opened_handles w) <= 1.
Proof.
  intros [_ Hlive].
  assert (Hheld : forall h, In h (live_opened_handles w) -> streamRef (state w) = Some h).
  { intros h Hh. unfold live_opened_handles in Hh. apply filter_In in Hh as [_ Hh].
    destruct (store w !! h) as [s|] eqn:Hs; [| discriminate].
    apply andb_prop in Hh as [Hd Hl]. apply (Hlive h s Hs Hd Hl). }
  assert (Hnodup : List.NoDup (live_opened_handles w)).
  { apply List.NoDup_filter, List.seq_NoDup. }
  destruct (live_opened_handles w) as [|a [|b l]]; simpl; try lia.
  exfalso.
  assert (Hab : a = b).
  { pose proof (Hheld a (or_introl eq_refl)) as Ha.
    pose proof (Hheld b (or_intror (or_introl eq_refl))) as Hb. congruence. }
  inversion Hnodup as [|? ? Hnotin _]. apply Hnotin. left. symmetry. exact Hab.
Qed.

(** C7 (amended): for every call of [startStream] made while a stream is
    held, every track of that stream is stopped before the new capture
    stream is requested, and the stream has no running track left; in
    every session of the component, whatever its operations (device
    refreshes included) and the answers of the host, where no open is
    issued while another is in flight, at most one of the streams opened
    by [startStream] has a running track at any time. *)
Theorem held_stream_released_one_opened_live :
  (forall w h s,
     streamRef (state w) = Some h ->
     store w !! h = Some s ->
     JS.truthy_string (selectedDeviceId (state w)) = true ->
     log (exec startStream w)
     = log w ++ map (TrackStop h) (seq 0 (length (getTracks s)))
             ++ [GetUserMedia (open_constraints (selectedDeviceId (state w)))]
     /\ store (exec startStream w) !! h = Some (stop_all s)
     /\ stream_live (stop_all s) = false)
  /\ (forall w, Orderly w -> length (live_opened_handles w) <= 1).
Proof.
  split.
  - intros w h s Hheld Hs Hid.
    destruct (startStream_releases_first w h s Hheld Hs Hid) as (Hlog & Hstore & Hended & _).
    split; [exact Hlog | split; [exact Hstore | exact Hended]].
  - intros w Horderly. apply one_opened_live, Orderly_one_opened. exact Horderly.
Qed.

Lemma held_stream_released_one_opened_live_witness :
  log (exec startStream refreshed_holding_a)
  = log refreshed_holding_a ++ [TrackStop 1 0; GetUserMedia (open_constraints "a")]
  /\ live_handles refreshed_holding_a = [0; 1]
  /\ live_opened_handles refreshed_holding_a = [1]
  /\ length (live_opened_handles refreshed_holding_a) <= 1.
Proof.
  destruct held_stream_released_one_opened_live as [Hfirst Horderly].
  split; [| split; [| split]].
  - destruct (Hfirst refreshed_holding_a 1
                {| source := Some "a"; getTracks := [camera no_capabilities reports_nothing] |}
                eq_refl eq_refl eq_refl) as (Hlog & _).
    exact Hlog.
  - reflexivity.
  - reflexivity.
  - apply Horderly. unfold refreshed_holding_a, play. simpl.
    apply (Orderly_other (Arrive 0 (JS.Fulfilled [camera no_capabilities reports_nothing])));
      [| discriminate].
    apply (Orderly_select "a"); [| reflexivity].
    apply (Orderly_other (Refresh (JS.Fulfilled [camera no_capabilities reports_nothing])
                                  (JS.Fulfilled [cam_a]))); [| discriminate].
    apply Orderly_start.
Defined.
